(** * scratch-audio: playback orchestration and effects chain

    A shallow embedding of [SoundPlayer], [DrumPlayer], [AudioPlayer] and
    [AudioEngine] (src/SoundPlayer.js, src/DrumPlayer.js, src/index.js).

    JavaScript numbers are IEEE 754 binary64 values, so they are modelled
    by primitive floats; [/] and [*] below are the correctly rounded
    operations the engine performs.  Objects that the code mutates through
    shared references (the [SoundPlayer]s kept in [activeSoundPlayers] and
    captured by the [onended] callback) live in an explicit heap and are
    named by their index.  Plain objects used as dictionaries
    ([audioBuffers], [activeSoundPlayers]) are finite maps keyed by the
    md5 identity of the sound; an identity is the md5 of a file with its
    extension, so it is never the name of a property inherited from
    [Object.prototype].

    The audio graph itself (Tone.js, Web Audio), the decoders and the
    logger are outside the sources: the model keeps what the code stores
    in them or asks of them (the fields of a buffer source, the requested
    timeouts, the logged warnings) and takes the outcome of a decode as an
    input.  A buffer source that a player no longer references stays in
    the audio graph; the player record keeps those sources in [earlier].  The microphone part of the engine ([mic], [micMeter],
    [getLoudness]) is left out. *)

From Stdlib Require Import Floats.
From stdpp Require Import gmap strings list.

(** ** JavaScript scaffolding *)

Inductive JSError :=
  | TypeError (msg : string).

(** Outcome of evaluating a block of statements. *)
Inductive completion (A : Type) :=
  | Normal (a : A)
  | Throw (e : JSError).
Arguments Normal {A} a.
Arguments Throw {A} e.

(** What a caller holding a promise can observe about it. *)
Inductive Promise :=
  | Pending
  | Rejected (e : JSError).

(** [new Promise(executor)]: the executor runs synchronously; if it throws,
    the exception is caught by the constructor and the new promise is
    rejected with it. *)
Definition new_Promise {S : Type} (executor : S → completion S) (s : S) : S * Promise :=
  match executor s with
  | Normal s' => (s', Pending)
  | Throw e => (s, Rejected e)
  end.

(** What a method hands back: [undefined] or a promise. *)
Inductive Ret :=
  | RetUndefined
  | RetPromise (p : Promise).

(** [Math.pow] is provided by the host; its result is only specified up to
    the host's approximation, so it is an interface of the model. *)
Class MathLib := Math_pow : float → float → float.

(** ** The audio graph (Tone.js / Web Audio), as far as the code uses it *)

(** Output nodes a source can be connected to: the engine's input gain, or
    the effects node of the actor with the given number. *)
Inductive NodeRef :=
  | EngineInput
  | EffectsNode (actor : nat).

#[global] Instance NodeRef_eq_dec : EqDecision NodeRef.
Proof. solve_decision. Defined.

(** [Tone.Buffer]: the decoded samples and the [loaded] flag. *)
Record ToneBuffer := {
  loaded : bool;
  samples : list float
}.

(** [new Tone.Buffer()] and [new Tone.Buffer(url)] before the download ends. *)
Definition empty_buffer : ToneBuffer := {| loaded := false; samples := [] |}.

(** The node made by [Tone.context.createBufferSource()]. *)
Record BufferSource := {
  bs_buffer : list float;
  bs_playbackRate : float;
  bs_destination : option NodeRef;
  bs_started : bool;
  bs_stopped : bool;
  bs_onended : bool   (* a handler is installed, bound to the owning player *)
}.

Definition createBufferSource : BufferSource :=
  {| bs_buffer := []; bs_playbackRate := 1%float; bs_destination := None;
     bs_started := false; bs_stopped := false; bs_onended := false |}.

Definition bs_set_buffer (b : list float) (s : BufferSource) : BufferSource :=
  {| bs_buffer := b; bs_playbackRate := bs_playbackRate s;
     bs_destination := bs_destination s; bs_started := bs_started s;
     bs_stopped := bs_stopped s; bs_onended := bs_onended s |}.

Definition bs_set_rate (r : float) (s : BufferSource) : BufferSource :=
  {| bs_buffer := bs_buffer s; bs_playbackRate := r;
     bs_destination := bs_destination s; bs_started := bs_started s;
     bs_stopped := bs_stopped s; bs_onended := bs_onended s |}.

Definition bs_connect (n : option NodeRef) (s : BufferSource) : BufferSource :=
  {| bs_buffer := bs_buffer s; bs_playbackRate := bs_playbackRate s;
     bs_destination := n; bs_started := bs_started s;
     bs_stopped := bs_stopped s; bs_onended := bs_onended s |}.

Definition bs_start (s : BufferSource) : BufferSource :=
  {| bs_buffer := bs_buffer s; bs_playbackRate := bs_playbackRate s;
     bs_destination := bs_destination s; bs_started := true;
     bs_stopped := bs_stopped s; bs_onended := bs_onended s |}.

Definition bs_stop (s : BufferSource) : BufferSource :=
  {| bs_buffer := bs_buffer s; bs_playbackRate := bs_playbackRate s;
     bs_destination := bs_destination s; bs_started := bs_started s;
     bs_stopped := true; bs_onended := bs_onended s |}.

Definition bs_set_onended (s : BufferSource) : BufferSource :=
  {| bs_buffer := bs_buffer s; bs_playbackRate := bs_playbackRate s;
     bs_destination := bs_destination s; bs_started := bs_started s;
     bs_stopped := bs_stopped s; bs_onended := true |}.

(** ** SoundPlayer (src/SoundPlayer.js) *)

Module SoundPlayer.

Record t := {
  outputNode : option NodeRef;
  buffer : option ToneBuffer;
  bufferSource : option BufferSource;
  playbackRate : float;
  isPlaying : bool;
  (* the sources this player created before and no longer references, most
     recent first: [start] assigns a new source to [bufferSource] without
     stopping the one it held, which stays in the audio graph *)
  earlier : list BufferSource
}.

Definition new : t :=
  {| outputNode := None; buffer := Some empty_buffer; bufferSource := None;
     playbackRate := 1%float; isPlaying := false; earlier := [] |}.

Definition connect (node : NodeRef) (this : t) : t :=
  {| outputNode := Some node; buffer := buffer this;
     bufferSource := bufferSource this; playbackRate := playbackRate this;
     isPlaying := isPlaying this; earlier := earlier this |}.

(** The assignment [player.outputNode = node] made by [DrumPlayer.play]. *)
Definition set_outputNode (node : option NodeRef) (this : t) : t :=
  {| outputNode := node; buffer := buffer this;
     bufferSource := bufferSource this; playbackRate := playbackRate this;
     isPlaying := isPlaying this; earlier := earlier this |}.

Definition setBuffer (b : ToneBuffer) (this : t) : t :=
  {| outputNode := outputNode this; buffer := Some b;
     bufferSource := bufferSource this; playbackRate := playbackRate this;
     isPlaying := isPlaying this; earlier := earlier this |}.

Definition setPlaybackRate (rate : float) (this : t) : t :=
  {| outputNode := outputNode this; buffer := buffer this;
     bufferSource := bs_set_rate rate <$> bufferSource this;
     playbackRate := rate;
     isPlaying := isPlaying this; earlier := earlier this |}.

(** [stop] reaches the source [bufferSource] refers to, and no other. *)
Definition stop (this : t) : t :=
  {| outputNode := outputNode this; buffer := buffer this;
     bufferSource := bs_stop <$> bufferSource this;
     playbackRate := playbackRate this;
     isPlaying := false; earlier := earlier this |}.

Definition not_loaded_warning : string :=
  "tried to play a sound that was not loaded yet".

(** The sources of the audio graph that the player no longer references
    once [bufferSource] is assigned again. *)
Definition replaced_sources (this : t) : list BufferSource :=
  match bufferSource this with
  | Some old => old :: earlier this
  | None => earlier this
  end.

(** [start] returns the player together with the warnings it logged.  The
    source it held before is neither stopped nor disconnected. *)
Definition start (this : t) : t * list string :=
  match buffer this with
  | Some b =>
      if loaded b then
        let src := createBufferSource in
        let src := bs_set_buffer (samples b) src in
        let src := bs_set_rate (playbackRate this) src in
        let src := bs_connect (outputNode this) src in
        let src := bs_start src in
        ({| outputNode := outputNode this; buffer := buffer this;
            bufferSource := Some src; playbackRate := playbackRate this;
            isPlaying := true; earlier := replaced_sources this |}, [])
      else (this, [not_loaded_warning])
  | None => (this, [not_loaded_warning])
  end.

(** Body of the executor in [finished]: the assignment
    [storedContext.bufferSource.onended = ...] dereferences
    [bufferSource], which is [null] until [start] succeeded.  The handler
    goes on the source that is current at that moment. *)
Definition finished_executor (this : t) : completion t :=
  match bufferSource this with
  | Some src =>
      Normal {| outputNode := outputNode this; buffer := buffer this;
                bufferSource := Some (bs_set_onended src);
                playbackRate := playbackRate this;
                isPlaying := isPlaying this; earlier := earlier this |}
  | None => Throw (TypeError "Cannot set property 'onended' of null")
  end.

Definition finished (this : t) : t * Promise :=
  new_Promise finished_executor this.

(** The function installed by [finished], bound to the player. *)
Definition onended_handler (this : t) : t :=
  {| outputNode := outputNode this; buffer := buffer this;
     bufferSource := bufferSource this;
     playbackRate := playbackRate this; isPlaying := false;
     earlier := earlier this |}.

(** The current source ends (naturally or after [stop]): the audio graph
    runs its handler, if [finished] installed one on it. *)
Definition onended (this : t) : t :=
  match bufferSource this with
  | Some src => if bs_onended src then onended_handler this else this
  | None => this
  end.

(** A source that [start] has replaced ends: its handler, if it has one,
    is still bound to the player and runs on it. *)
Definition onended_earlier (i : nat) (this : t) : t :=
  match earlier this !! i with
  | Some src => if bs_onended src then onended_handler this else this
  | None => this
  end.

End SoundPlayer.

(** ** DrumPlayer (src/DrumPlayer.js) *)

Module DrumPlayer.

Record t := {
  outputNode : NodeRef;
  drumSounds : list SoundPlayer.t
}.

Definition fileNames : list string :=
  [ "SnareDrum(1)"; "BassDrum(1b)"; "SideStick(1)"; "Crash(2)";
    "HiHatOpen(2)"; "HiHatClosed(1)"; "Tambourine(3)"; "Clap(1)";
    "Claves(1)"; "WoodBlock(1)"; "Cowbell(3)"; "Triangle(1)"; "Bongo";
    "Conga(1)"; "Cabasa(1)"; "GuiroLong(1)"; "Vibraslap(1)"; "Cuica(2)" ].

(** Each drum gets a player whose buffer is fetched from a URL, so it is
    not loaded when the constructor returns. *)
Definition new (outputNode : NodeRef) : t :=
  {| outputNode := outputNode;
     drumSounds :=
       (λ _, SoundPlayer.setBuffer empty_buffer SoundPlayer.new) <$> fileNames |}.

(** The download of drum [i] completes. *)
Definition buffer_loaded (i : nat) (pcm : list float) (this : t) : t :=
  {| outputNode := outputNode this;
     drumSounds :=
       alter (SoundPlayer.setBuffer {| loaded := true; samples := pcm |}) i
             (drumSounds this) |}.

(** [drumSounds[drum]] is [undefined] out of range, and assigning a
    property of [undefined] throws. *)
Definition play (drum : nat) (node : NodeRef) (this : t)
  : completion (t * list string) :=
  match drumSounds this !! drum with
  | None => Throw (TypeError "Cannot set property 'outputNode' of undefined")
  | Some sp =>
      let sp := SoundPlayer.set_outputNode (Some node) sp in
      let '(sp, warns) := SoundPlayer.start sp in
      Normal ({| outputNode := outputNode this;
                 drumSounds := <[drum := sp]> (drumSounds this) |}, warns)
  end.

Definition stopAll (this : t) : t :=
  {| outputNode := outputNode this;
     drumSounds := SoundPlayer.stop <$> drumSounds this |}.

End DrumPlayer.

(** ** InstrumentPlayer *)

Module InstrumentPlayer.

Record Note := {
  note_midi : float;
  note_sec : float;
  note_inst : float;
  note_vol : float;
  sounding : bool
}.

(** Modelled from the spec: src/InstrumentPlayer.js is missing.  The spec
    describes the instrument bank as a shared singleton owned by the
    engine whose [stopAll] halts the in-flight notes of every actor; the
    bank is the list of notes it was asked to play. *)
Record t := {
  outputNode : NodeRef;
  notes : list Note
}.

Definition new (outputNode : NodeRef) : t :=
  {| outputNode := outputNode; notes := [] |}.

(** Modelled from the spec: src/InstrumentPlayer.js is missing; playing a
    note puts a sounding note in the bank. *)
Definition playNoteForSecWithInstAndVol (note sec inst vol : float) (this : t) : t :=
  {| outputNode := outputNode this;
     notes := notes this ++
       [ {| note_midi := note; note_sec := sec; note_inst := inst;
            note_vol := vol; sounding := true |} ] |}.

Definition halt (n : Note) : Note :=
  {| note_midi := note_midi n; note_sec := note_sec n;
     note_inst := note_inst n; note_vol := note_vol n; sounding := false |}.

(** Modelled from the spec: src/InstrumentPlayer.js is missing; [stopAll]
    halts every note of the bank. *)
Definition stopAll (this : t) : t :=
  {| outputNode := outputNode this; notes := halt <$> notes this |}.

End InstrumentPlayer.

(** ** The heap of SoundPlayer objects *)

(** [AudioPlayer.playSound] creates a new [SoundPlayer] on every call and
    keeps a reference to it in [activeSoundPlayers]; the [onended] callback
    keeps another.  A cell holds the object and, as a history variable,
    the md5 of the [playSound] call that created it. *)
Record Cell := {
  obj : SoundPlayer.t;
  sound : string
}.

Definition on_obj (f : SoundPlayer.t → SoundPlayer.t) (c : Cell) : Cell :=
  {| obj := f (obj c); sound := sound c |}.

(** [heap[r].method()] for a method that only mutates its receiver. *)
Definition update (r : nat) (f : SoundPlayer.t → SoundPlayer.t) (h : list Cell) : list Cell :=
  alter (on_obj f) r h.

(** [for (const md5 in players) { players[md5].method(); }] *)
Definition for_each (f : SoundPlayer.t → SoundPlayer.t)
    (players : gmap string nat) (h : list Cell) : list Cell :=
  foldr (λ kv h, update kv.2 f h) h (map_to_list players).

(** [heap[r].isPlaying] *)
Definition is_playing (h : list Cell) (r : nat) : bool :=
  match h !! r with
  | Some c => SoundPlayer.isPlaying (obj c)
  | None => false
  end.

(** ** PitchEffect and PanEffect *)

Module PitchEffect.

Record t := {
  value : float;
  ratio : float
}.

(** Modelled from the spec: src/effects/PitchEffect.js is missing.  A new
    effect is neutral. *)
Definition new : t := {| value := 0%float; ratio := 1%float |}.

(** Modelled from the spec: src/effects/PitchEffect.js is missing;
    [rate = 2^(pitchValue/120)]. *)
Definition getRatio `{MathLib} (val : float) : float :=
  Math_pow 2%float (val / 120)%float.

(** Modelled from the spec: src/effects/PitchEffect.js is missing; the
    actor's derived rate is applied to one player. *)
Definition updatePlayer (this : t) (player : SoundPlayer.t) : SoundPlayer.t :=
  SoundPlayer.setPlaybackRate (ratio this) player.

(** Modelled from the spec: src/effects/PitchEffect.js is missing; setting
    the pitch re-applies the derived rate to every player of the
    registry it is given. *)
Definition set `{MathLib} (val : float) (players : gmap string nat)
    (this : t) (h : list Cell) : t * list Cell :=
  let this' := {| value := val; ratio := getRatio val |} in
  (this', for_each (updatePlayer this') players h).

End PitchEffect.

Module PanEffect.

Record t := {
  value : float
}.

(** Modelled from the spec: src/effects/PanEffect.js is missing; the pan
    value is a setting of the shared output node only. *)
Definition new : t := {| value := 0%float |}.

Definition set (val : float) (this : t) : t := {| value := val |}.

End PanEffect.

(** ** AudioEngine (src/index.js): fields *)

Module Engine.

Record t := {
  input : NodeRef;
  currentTempo : float;
  instrumentPlayer : InstrumentPlayer.t;
  drumPlayer : DrumPlayer.t;
  audioBuffers : gmap string ToneBuffer
}.

End Engine.

(** The state shared by every actor: the single engine, the heap of
    [SoundPlayer] objects, the timeouts handed to [setTimeout] (delay in
    milliseconds, in the order they were requested) and the messages
    given to [log.warn]. *)
Record Store := {
  audioEngine : Engine.t;
  heap : list Cell;
  timers : list float;
  log : list string
}.

Definition set_engine (e : Engine.t) (s : Store) : Store :=
  {| audioEngine := e; heap := heap s; timers := timers s; log := log s |}.

Definition set_heap (h : list Cell) (s : Store) : Store :=
  {| audioEngine := audioEngine s; heap := h; timers := timers s; log := log s |}.

Definition setTimeout (ms : float) (s : Store) : Store :=
  {| audioEngine := audioEngine s; heap := heap s;
     timers := timers s ++ [ms]; log := log s |}.

Definition log_warn (msgs : list string) (s : Store) : Store :=
  {| audioEngine := audioEngine s; heap := heap s; timers := timers s;
     log := log s ++ msgs |}.

(** A sound handed over by the storage layer. *)
Record Sound := {
  data : list Byte.byte;
  format : string;
  md5 : string
}.

(** The decoder a [loaderPromise] is waiting for, with its copy of the data. *)
Inductive Loader :=
  | DecodeAudioData (bufferCopy : list Byte.byte)
  | ADPCMSoundDecoder (bufferCopy : list Byte.byte).

(** How a [loaderPromise] settles: with the decoded audio, given here as
    the [Tone.Buffer] built around it, or with an error. *)
Inductive Settled :=
  | Fulfilled (decodedAudio : ToneBuffer)
  | Failed (error : string).

(** ** AudioEngine (src/index.js): methods *)

Module AudioEngine.

Import Engine.

Definition new : Engine.t :=
  {| input := EngineInput;
     currentTempo := 60%float;
     instrumentPlayer := InstrumentPlayer.new EngineInput;
     drumPlayer := DrumPlayer.new EngineInput;
     audioBuffers := ∅ |}.

Definition EFFECT_NAMES_pitch : string := "pitch".
Definition EFFECT_NAMES_pan : string := "pan".

Definition set_audioBuffers (m : gmap string ToneBuffer) (this : Engine.t) : Engine.t :=
  {| input := input this; currentTempo := currentTempo this;
     instrumentPlayer := instrumentPlayer this;
     drumPlayer := drumPlayer this; audioBuffers := m |}.

Definition set_drumPlayer (d : DrumPlayer.t) (this : Engine.t) : Engine.t :=
  {| input := input this; currentTempo := currentTempo this;
     instrumentPlayer := instrumentPlayer this;
     drumPlayer := d; audioBuffers := audioBuffers this |}.

Definition set_instrumentPlayer (i : InstrumentPlayer.t) (this : Engine.t) : Engine.t :=
  {| input := input this; currentTempo := currentTempo this;
     instrumentPlayer := i;
     drumPlayer := drumPlayer this; audioBuffers := audioBuffers this |}.

(** [decodeSound], up to its [return]: [None] when it returned the result
    of [log.warn], [Some l] when it returned [loaderPromise.then(...)].
    (The [console.log] trace is left out.) *)
Definition decodeSound (sound : Sound) (s : Store) : option Loader * Store :=
  let bufferCopy := data sound in
  if decide (format sound = "") then
    (Some (DecodeAudioData bufferCopy), s)
  else if decide (format sound = "adpcm") then
    (Some (ADPCMSoundDecoder bufferCopy), s)
  else
    (None, log_warn ["unknown sound format"] s).

(** The two callbacks given to [loaderPromise.then], run when the
    promise settles. *)
Definition decodeSound_then (sound : Sound) (outcome : Settled) (s : Store) : Store :=
  match outcome with
  | Fulfilled decodedAudio =>
      set_engine
        (set_audioBuffers
           (<[md5 sound := decodedAudio]> (audioBuffers (audioEngine s)))
           (audioEngine s)) s
  | Failed error =>
      log_warn ["audio data could not be decoded"] s
  end.

Definition loadSounds (s : Store) : Store :=
  log_warn ["The loadSounds function is no longer available. Please use Scratch Storage."] s.

Definition beatsToSec (beats : float) (this : Engine.t) : float :=
  ((60 / currentTempo this) * beats)%float.

(** The delay is computed when the executor runs, that is, during the
    call. *)
Definition waitForBeats (beats : float) (s : Store) : Store * Promise :=
  new_Promise
    (λ s, Normal (setTimeout (beatsToSec beats (audioEngine s) * 1000)%float s))
    s.

Definition playNoteForBeatsWithInstAndVol (note beats inst vol : float) (s : Store)
  : Store * Promise :=
  let sec := beatsToSec beats (audioEngine s) in
  let s :=
    set_engine
      (set_instrumentPlayer
         (InstrumentPlayer.playNoteForSecWithInstAndVol note sec inst vol
            (instrumentPlayer (audioEngine s)))
         (audioEngine s)) s in
  waitForBeats beats s.

Definition setTempo (value : float) (this : Engine.t) : Engine.t :=
  {| input := input this; currentTempo := value;
     instrumentPlayer := instrumentPlayer this;
     drumPlayer := drumPlayer this; audioBuffers := audioBuffers this |}.

Definition changeTempo (value : float) (this : Engine.t) : Engine.t :=
  setTempo (currentTempo this + value)%float this.

End AudioEngine.

(** ** AudioPlayer (src/index.js) *)

(** [Tone.Gain]: which node it is, and its gain. *)
Record Gain := {
  gain_node : NodeRef;
  gain_value : float
}.

Module AudioPlayer.

Record t := {
  pitchEffect : PitchEffect.t;
  panEffect : PanEffect.t;
  effectsNode : Gain;
  activeSoundPlayers : gmap string nat
}.

Definition set_activeSoundPlayers (m : gmap string nat) (this : t) : t :=
  {| pitchEffect := pitchEffect this; panEffect := panEffect this;
     effectsNode := effectsNode this; activeSoundPlayers := m |}.

Definition set_pitchEffect (p : PitchEffect.t) (this : t) : t :=
  {| pitchEffect := p; panEffect := panEffect this;
     effectsNode := effectsNode this;
     activeSoundPlayers := activeSoundPlayers this |}.

Definition set_panEffect (p : PanEffect.t) (this : t) : t :=
  {| pitchEffect := pitchEffect this; panEffect := p;
     effectsNode := effectsNode this;
     activeSoundPlayers := activeSoundPlayers this |}.

Definition set_gain (g : float) (this : t) : t :=
  {| pitchEffect := pitchEffect this; panEffect := panEffect this;
     effectsNode := {| gain_node := gain_node (effectsNode this); gain_value := g |};
     activeSoundPlayers := activeSoundPlayers this |}.

(** [new SoundPlayer()] up to [player.start()]: the new object, and what
    [start] logged. *)
Definition make_player (b : ToneBuffer) (this : t) : SoundPlayer.t * list string :=
  let player := SoundPlayer.new in
  let player := SoundPlayer.setBuffer b player in
  let player := SoundPlayer.connect (gain_node (effectsNode this)) player in
  let player := PitchEffect.updatePlayer (pitchEffect this) player in
  SoundPlayer.start player.

(** The loop that deletes the entries whose player is not playing. *)
Definition prune (h : list Cell) (players : gmap string nat) : gmap string nat :=
  filter (λ kv, is_playing h kv.2 = true) players.

Definition playSound (md5 : string) (this : t) (s : Store) : Ret * t * Store :=
  match Engine.audioBuffers (audioEngine s) !! md5 with
  | None => (RetUndefined, this, s)
  | Some b =>
      (* if this sprite or clone is already playing this sound, stop it first *)
      let h :=
        match activeSoundPlayers this !! md5 with
        | Some r => update r SoundPlayer.stop (heap s)
        | None => heap s
        end in
      (* create a new soundplayer to play the sound *)
      let '(player, warns) := make_player b this in
      let r := length h in
      let h := h ++ [ {| obj := player; sound := md5 |} ] in
      let s := log_warn warns s in
      (* add it to the list of active sound players *)
      let players := <[md5 := r]> (activeSoundPlayers this) in
      (* remove sounds that are not playing *)
      let players := prune h players in
      (* return player.finished() *)
      let '(player, promise) := SoundPlayer.finished player in
      let h := update r (λ _, player) h in
      (RetPromise promise, set_activeSoundPlayers players this, set_heap h s)
  end.

Definition playDrumForBeats (drum : nat) (beats : float) (this : t) (s : Store)
  : completion (Store * Promise) :=
  match DrumPlayer.play drum (gain_node (effectsNode this))
          (Engine.drumPlayer (audioEngine s)) with
  | Throw e => Throw e
  | Normal (d, warns) =>
      let s := set_engine (AudioEngine.set_drumPlayer d (audioEngine s)) s in
      let s := log_warn warns s in
      Normal (AudioEngine.waitForBeats beats s)
  end.

Definition stopAllSounds (this : t) (s : Store) : Store :=
  (* stop all active sound players *)
  let s := set_heap (for_each SoundPlayer.stop (activeSoundPlayers this) (heap s)) s in
  (* stop all instruments *)
  let s :=
    set_engine
      (AudioEngine.set_instrumentPlayer
         (InstrumentPlayer.stopAll (Engine.instrumentPlayer (audioEngine s)))
         (audioEngine s)) s in
  (* stop drum notes *)
  set_engine
    (AudioEngine.set_drumPlayer
       (DrumPlayer.stopAll (Engine.drumPlayer (audioEngine s)))
       (audioEngine s)) s.

Definition setEffect `{MathLib} (effect : string) (value : float) (this : t) (s : Store)
  : t * Store :=
  if decide (effect = AudioEngine.EFFECT_NAMES_pitch) then
    let '(p, h) :=
      PitchEffect.set value (activeSoundPlayers this) (pitchEffect this) (heap s) in
    (set_pitchEffect p this, set_heap h s)
  else if decide (effect = AudioEngine.EFFECT_NAMES_pan) then
    (set_panEffect (PanEffect.set value (panEffect this)) this, s)
  else (this, s).

Definition clearEffects `{MathLib} (this : t) (s : Store) : t * Store :=
  let this := set_panEffect (PanEffect.set 0%float (panEffect this)) this in
  let '(p, h) :=
    PitchEffect.set 0%float (activeSoundPlayers this) (pitchEffect this) (heap s) in
  let this := set_pitchEffect p this in
  let this := set_gain 1%float this in
  (this, set_heap h s).

Definition setVolume (value : float) (this : t) : t :=
  set_gain (value / 100)%float this.

(** The constructor, for the actor whose effects node is number [a].
    [clearEffects] runs before [activeSoundPlayers] is assigned, so the
    pitch effect has no player to update. *)
Definition new `{MathLib} (a : nat) (s : Store) : t * Store :=
  let this :=
    {| pitchEffect := PitchEffect.new; panEffect := PanEffect.new;
       effectsNode := {| gain_node := EffectsNode a; gain_value := 1%float |};
       activeSoundPlayers := ∅ |} in
  let '(this, s) := clearEffects this s in
  (set_activeSoundPlayers ∅ this, s).

End AudioPlayer.

(** ** The whole system: one engine, many actors *)

Record World := {
  store : Store;
  actors : list AudioPlayer.t
}.

Definition init : World :=
  {| store := {| audioEngine := AudioEngine.new; heap := []; timers := []; log := [] |};
     actors := [] |}.

(** What can happen to the system: a call to one of the public operations
    (on the engine, or on the actor with the given number), or one of the
    callbacks the host runs later.  The end of a source runs code only
    through a handler that [finished] installed, and [finished] is called
    by [playSound] alone, on the current source of the player it has just
    made: [Event_onended r] is that callback for heap player [r].  The
    players of the heap never replace their source and no source of a drum
    player carries a handler (both are proved below), so the end of any
    other source runs no code. *)
Inductive Op :=
  | Call_createPlayer
  | Call_playSound (a : nat) (md5 : string)
  | Call_playDrumForBeats (a : nat) (drum : nat) (beats : float)
  | Call_stopAllSounds (a : nat)
  | Call_setEffect (a : nat) (effect : string) (value : float)
  | Call_clearEffects (a : nat)
  | Call_setVolume (a : nat) (value : float)
  | Call_decodeSound (sound : Sound)
  | Call_loadSounds
  | Call_playNoteForBeatsWithInstAndVol (note beats inst vol : float)
  | Call_waitForBeats (beats : float)
  | Call_setTempo (value : float)
  | Call_changeTempo (value : float)
  | Event_loaderSettled (sound : Sound) (outcome : Settled)
  | Event_onended (r : nat)
  | Event_drumLoaded (i : nat) (pcm : list float).

Section Run.

Context `{MathLib}.

(** [AudioEngine.createPlayer]: the new actor gets the next number. *)
Definition createPlayer (w : World) : World :=
  let '(p, s) := AudioPlayer.new (length (actors w)) (store w) in
  {| store := s; actors := actors w ++ [p] |}.

(** Run a method of actor [a]; there is nothing to call when the actor
    does not exist. *)
Definition with_actor (a : nat) (f : AudioPlayer.t → Store → AudioPlayer.t * Store)
    (w : World) : World :=
  match actors w !! a with
  | Some p =>
      let '(p', s') := f p (store w) in
      {| store := s'; actors := <[a := p']> (actors w) |}
  | None => w
  end.

Definition on_store (f : Store → Store) (w : World) : World :=
  {| store := f (store w); actors := actors w |}.

Definition on_engine (f : Engine.t → Engine.t) (w : World) : World :=
  on_store (λ s, set_engine (f (audioEngine s)) s) w.

Definition exec (o : Op) (w : World) : World :=
  match o with
  | Call_createPlayer => createPlayer w
  | Call_playSound a md5 =>
      with_actor a (λ p s, let '(_, p', s') := AudioPlayer.playSound md5 p s in (p', s')) w
  | Call_playDrumForBeats a drum beats =>
      with_actor a
        (λ p s, match AudioPlayer.playDrumForBeats drum beats p s with
                | Normal (s', _) => (p, s')
                | Throw _ => (p, s)
                end) w
  | Call_stopAllSounds a =>
      with_actor a (λ p s, (p, AudioPlayer.stopAllSounds p s)) w
  | Call_setEffect a effect value =>
      with_actor a (AudioPlayer.setEffect effect value) w
  | Call_clearEffects a =>
      with_actor a AudioPlayer.clearEffects w
  | Call_setVolume a value =>
      with_actor a (λ p s, (AudioPlayer.setVolume value p, s)) w
  | Call_decodeSound sound =>
      on_store (λ s, (AudioEngine.decodeSound sound s).2) w
  | Call_loadSounds =>
      on_store AudioEngine.loadSounds w
  | Call_playNoteForBeatsWithInstAndVol note beats inst vol =>
      on_store (λ s, (AudioEngine.playNoteForBeatsWithInstAndVol note beats inst vol s).1) w
  | Call_waitForBeats beats =>
      on_store (λ s, (AudioEngine.waitForBeats beats s).1) w
  | Call_setTempo value =>
      on_engine (AudioEngine.setTempo value) w
  | Call_changeTempo value =>
      on_engine (AudioEngine.changeTempo value) w
  | Event_loaderSettled sound outcome =>
      on_store (AudioEngine.decodeSound_then sound outcome) w
  | Event_onended r =>
      on_store (λ s, set_heap (update r SoundPlayer.onended (heap s)) s) w
  | Event_drumLoaded i pcm =>
      on_engine (λ e, AudioEngine.set_drumPlayer
                        (DrumPlayer.buffer_loaded i pcm (Engine.drumPlayer e)) e) w
  end.

(** Run a history, oldest operation first. *)
Definition run (ops : list Op) (w : World) : World :=
  foldl (λ w o, exec o w) w ops.

Definition reachable (w : World) : Prop := ∃ ops, w = run ops init.

End Run.

(** A host whose [Math.pow] is exact on the exponents 0 and 1 (and gives
    NaN elsewhere), to run the model on concrete histories. *)
Definition pow_basic : MathLib :=
  λ b e, if (e =? 0)%float then 1%float
         else if (e =? 1)%float then b
         else nan.

(** ** Histories and states used as examples *)

(** The first actor made by [createPlayer] on a fresh engine. *)
Definition first_actor : AudioPlayer.t :=
  (@AudioPlayer.new pow_basic 0 (store init)).1.

(** A store whose cache holds a buffer that is not loaded. *)
Definition unloaded_store : Store :=
  AudioEngine.decodeSound_then
    {| data := []; format := ""; md5 := "meow.wav" |}
    (Fulfilled {| loaded := false; samples := [] |})
    (store init).

(** A history after which actor 0 is playing a loaded sound. *)
Definition playing_history : list Op :=
  [ Call_createPlayer;
    Event_loaderSettled {| data := []; format := ""; md5 := "meow.wav" |}
      (Fulfilled {| loaded := true; samples := [0.5%float] |});
    Call_playSound 0 "meow.wav" ].

Definition playing_world : World := @run pow_basic playing_history init.

Definition playing_actor : AudioPlayer.t :=
  default first_actor (actors playing_world !! 0).

(** A history after which the registry of actor 0 keeps a stopped player:
    the sound is decoded and played, everything is stopped, and then an
    unknown sound is requested. *)
Definition stale_history : list Op :=
  [ Call_createPlayer;
    Event_loaderSettled {| data := []; format := ""; md5 := "meow.wav" |}
      (Fulfilled {| loaded := true; samples := [0.5%float] |});
    Call_playSound 0 "meow.wav";
    Call_stopAllSounds 0 ].

(** Two actors: the second one plays a drum and a note, the first one
    calls [stopAllSounds]. *)
Definition drum_history : list Op :=
  [ Call_createPlayer; Call_createPlayer;
    Event_drumLoaded 3 [0.25%float];
    Call_playDrumForBeats 1 3 1%float;
    Call_playNoteForBeatsWithInstAndVol 60%float 1%float 0%float 100%float ].

(** A store in which drum 3 has its sample and is playing for actor 1. *)
Definition drum_store : Store := store (@run pow_basic drum_history init).

(** The state after [stale_history] once a second sound is decoded, and
    its actor. *)
Definition woof_world : World :=
  @run pow_basic
    (stale_history
     ++ [Event_loaderSettled {| data := []; format := ""; md5 := "woof.wav" |}
           (Fulfilled {| loaded := true; samples := [0.5%float] |})]) init.

Definition woof_actor : AudioPlayer.t :=
  default first_actor (actors woof_world !! 0).

(** Two actors; the second one is playing a loaded sound. *)
Definition two_actor_history : list Op :=
  [ Call_createPlayer; Call_createPlayer;
    Event_loaderSettled {| data := []; format := ""; md5 := "meow.wav" |}
      (Fulfilled {| loaded := true; samples := [0.5%float] |});
    Call_playSound 1 "meow.wav" ].

(** A loaded buffer, and a player bound to it and connected to the effects
    node of actor 0, not started yet. *)
Definition meow : ToneBuffer := {| loaded := true; samples := [0.5%float] |}.

Definition fresh_player : SoundPlayer.t :=
  SoundPlayer.connect (EffectsNode 0) (SoundPlayer.setBuffer meow SoundPlayer.new).

(** ** Vocabulary of the properties *)

(** The heap [playSound] works on once the previous player of the sound,
    if any, has been stopped. *)
Definition stop_previous (md5 : string) (this : AudioPlayer.t) (h : list Cell) : list Cell :=
  match AudioPlayer.activeSoundPlayers this !! md5 with
  | Some r => update r SoundPlayer.stop h
  | None => h
  end.

(** Every player of the registry is playing. *)
Definition registry_all_playing (this : AudioPlayer.t) (s : Store) : Prop :=
  ∀ id r, AudioPlayer.activeSoundPlayers this !! id = Some r →
          is_playing (heap s) r = true.

(** [r] is an instance of sound [X] made by actor [a] ([playSound]
    connects the players it makes to the actor's own effects node) that is
    playing. *)
Definition playing_instance (w : World) (a : nat) (X : string) (r : nat) : Prop :=
  ∃ c, heap (store w) !! r = Some c
       ∧ SoundPlayer.outputNode (obj c) = Some (EffectsNode a)
       ∧ sound c = X
       ∧ SoundPlayer.isPlaying (obj c) = true.

(** The invariant behind it: actor number [a] owns effects node [a], the
    registries only name objects of the heap, and every playing player of
    the heap is the registered player of its sound in the registry of the
    actor it is connected to. *)
Record Inv (w : World) : Prop := {
  inv_nodes : ∀ a p,
    actors w !! a = Some p →
    gain_node (AudioPlayer.effectsNode p) = EffectsNode a;
  inv_refs : ∀ a p X r,
    actors w !! a = Some p →
    AudioPlayer.activeSoundPlayers p !! X = Some r →
    r < length (heap (store w));
  inv_playing : ∀ r c,
    heap (store w) !! r = Some c →
    SoundPlayer.isPlaying (obj c) = true →
    ∃ a p, SoundPlayer.outputNode (obj c) = Some (EffectsNode a)
           ∧ actors w !! a = Some p
           ∧ AudioPlayer.activeSoundPlayers p !! sound c = Some r
}.

(** A player that was started at most once: it left no source behind,
    and if it is marked as playing then its source is started, has not
    been stopped, and carries the [onended] handler. *)
Definition well_started (sp : SoundPlayer.t) : Prop :=
  SoundPlayer.earlier sp = []
  ∧ (SoundPlayer.isPlaying sp = true →
     ∃ src, SoundPlayer.bufferSource sp = Some src
            ∧ bs_started src = true
            ∧ bs_stopped src = false
            ∧ bs_onended src = true).

(** Methods that never start a player nor reconnect it. *)
Definition quiet (f : SoundPlayer.t → SoundPlayer.t) : Prop :=
  ∀ x, SoundPlayer.isPlaying (f x) = true →
       SoundPlayer.isPlaying x = true
       ∧ SoundPlayer.outputNode (f x) = SoundPlayer.outputNode x.

(** No object of [h] is lost in [h'], and every player playing in [h'] was
    already playing in [h], for the same sound and on the same node. *)
Definition quieter (h h' : list Cell) : Prop :=
  length h ≤ length h'
  ∧ ∀ r c', h' !! r = Some c' → SoundPlayer.isPlaying (obj c') = true →
      ∃ c, h !! r = Some c
           ∧ SoundPlayer.isPlaying (obj c) = true
           ∧ SoundPlayer.outputNode (obj c) = SoundPlayer.outputNode (obj c')
           ∧ sound c = sound c'.

Definition same_identity (p p' : AudioPlayer.t) : Prop :=
  gain_node (AudioPlayer.effectsNode p) = gain_node (AudioPlayer.effectsNode p')
  ∧ AudioPlayer.activeSoundPlayers p = AudioPlayer.activeSoundPlayers p'.

(** The drum players of the engine. *)
Definition drums (w : World) : list SoundPlayer.t :=
  DrumPlayer.drumSounds (Engine.drumPlayer (audioEngine (store w))).

(** The buffer cache of the engine. *)
Definition buffers (w : World) : gmap string ToneBuffer :=
  Engine.audioBuffers (audioEngine (store w)).

(** Every object of [h] is still in [h'], bound to the same buffer, the
    same output node and the same sound, and it is not playing in [h']
    unless it was playing in [h]. *)
Definition ages (h h' : list Cell) : Prop :=
  ∀ r c, h !! r = Some c →
    ∃ c', h' !! r = Some c'
          ∧ sound c' = sound c
          ∧ SoundPlayer.buffer (obj c') = SoundPlayer.buffer (obj c)
          ∧ SoundPlayer.outputNode (obj c') = SoundPlayer.outputNode (obj c)
          ∧ (SoundPlayer.isPlaying (obj c') = true → SoundPlayer.isPlaying (obj c) = true).

(** Methods that keep the buffer and the output node of their receiver and
    do not start it. *)
Definition keeps_binding (f : SoundPlayer.t → SoundPlayer.t) : Prop :=
  ∀ x, SoundPlayer.buffer (f x) = SoundPlayer.buffer x
       ∧ SoundPlayer.outputNode (f x) = SoundPlayer.outputNode x
       ∧ (SoundPlayer.isPlaying (f x) = true → SoundPlayer.isPlaying x = true).

(** The registry of an actor only names players that this actor made, each
    under the sound it was made for. *)
Definition Owned (w : World) : Prop :=
  ∀ a p X r,
    actors w !! a = Some p →
    AudioPlayer.activeSoundPlayers p !! X = Some r →
    ∃ c, heap (store w) !! r = Some c
         ∧ SoundPlayer.outputNode (obj c) = Some (EffectsNode a)
         ∧ sound c = X.

(** Whether an operation creates a [SoundPlayer]: a [playSound] of an
    existing actor for a sound that has a buffer. *)
Definition allocates (o : Op) (w : World) : bool :=
  match o with
  | Call_playSound a md5 =>
      bool_decide (is_Some (actors w !! a) ∧ is_Some (buffers w !! md5))
  | _ => false
  end.

(** The operations that ask for a timeout. *)
Definition waits (o : Op) : bool :=
  match o with
  | Call_waitForBeats _ | Call_playDrumForBeats _ _ _
  | Call_playNoteForBeatsWithInstAndVol _ _ _ _ => true
  | _ => false
  end.

(** The actor an operation is called on, if it is a method of an actor. *)
Definition addressed_to (o : Op) : option nat :=
  match o with
  | Call_playSound a _ | Call_playDrumForBeats a _ _ | Call_stopAllSounds a
  | Call_setEffect a _ _ | Call_clearEffects a | Call_setVolume a _ => Some a
  | _ => None
  end.

(** The operations that assign the tempo. *)
Definition changes_tempo (o : Op) : bool :=
  match o with
  | Call_setTempo _ | Call_changeTempo _ => true
  | _ => false
  end.

(** A player whose source, if it has one, carries no [onended] handler. *)
Definition unobserved (sp : SoundPlayer.t) : Prop :=
  ∀ src, SoundPlayer.bufferSource sp = Some src → bs_onended src = false.

(** A player none of whose sources, current or replaced, carries an
    [onended] handler. *)
Definition never_observed (sp : SoundPlayer.t) : Prop :=
  unobserved sp ∧ Forall (λ old, bs_onended old = false) (SoundPlayer.earlier sp).

(** * Properties *)

(** ** Heap updates *)

Lemma update_length r f h : length (update r f h) = length h.
Proof. apply length_alter. Qed.

Lemma update_lookup r f h : update r f h !! r = on_obj f <$> h !! r.
Proof. unfold update. by rewrite list_lookup_alter, decide_True. Qed.

Lemma update_lookup_ne r r' f h : r ≠ r' → update r f h !! r' = h !! r'.
Proof. apply list_lookup_alter_ne. Qed.

(** A loop over a list of references applies an idempotent method once to
    every object it names, and leaves the others alone. *)
Lemma foldr_update_lookup f (l : list (string * nat)) h r :
  (∀ x, f (f x) = f x) →
  foldr (λ kv h, update kv.2 f h) h l !! r
  = if decide (r ∈ l.*2) then on_obj f <$> h !! r else h !! r.
Proof.
  intros Hidem. induction l as [|[k r0] l IH].
  - done.
  - rewrite fmap_cons. cbn [foldr snd].
    destruct (decide (r0 = r)) as [->|Hne].
    + rewrite update_lookup, IH.
      rewrite (decide_True (P := r ∈ r :: l.*2)) by (apply elem_of_cons; by left).
      case_decide; [|done].
      destruct (h !! r) as [[o sd]|]; simpl; [|done].
      unfold on_obj; simpl. by rewrite Hidem.
    + rewrite update_lookup_ne, IH by done.
      destruct (decide (r ∈ l.*2)) as [Hin|Hnin].
      * rewrite decide_True; [done|]. apply elem_of_cons; by right.
      * rewrite decide_False; [done|].
        intros [?|?]%elem_of_cons; congruence.
Qed.

Lemma elem_of_registry_refs (players : gmap string nat) r :
  r ∈ (map_to_list players).*2 ↔ ∃ k, players !! k = Some r.
Proof.
  rewrite list_elem_of_fmap. split.
  - intros [[k r'] [-> Hin]]. exists k. by apply elem_of_map_to_list.
  - intros [k Hk]. exists (k, r). split; [done|]. by apply elem_of_map_to_list.
Qed.

Lemma for_each_lookup_in f players h k r :
  (∀ x, f (f x) = f x) →
  players !! k = Some r →
  for_each f players h !! r = on_obj f <$> h !! r.
Proof.
  intros Hidem Hk. unfold for_each. rewrite foldr_update_lookup by done.
  rewrite decide_True; [done|]. apply elem_of_registry_refs. eauto.
Qed.

Lemma for_each_lookup_notin f players h r :
  (∀ x, f (f x) = f x) →
  (∀ k, players !! k ≠ Some r) →
  for_each f players h !! r = h !! r.
Proof.
  intros Hidem Hk. unfold for_each. rewrite foldr_update_lookup by done.
  rewrite decide_False; [done|].
  intros [k ?]%elem_of_registry_refs. by eapply Hk.
Qed.

Lemma for_each_empty f h : for_each f ∅ h = h.
Proof. unfold for_each. by rewrite map_to_list_empty. Qed.

Lemma stop_idem x : SoundPlayer.stop (SoundPlayer.stop x) = SoundPlayer.stop x.
Proof.
  unfold SoundPlayer.stop; simpl. f_equal.
  by destruct (SoundPlayer.bufferSource x).
Qed.

Lemma setPlaybackRate_idem rate x :
  SoundPlayer.setPlaybackRate rate (SoundPlayer.setPlaybackRate rate x)
  = SoundPlayer.setPlaybackRate rate x.
Proof.
  unfold SoundPlayer.setPlaybackRate; simpl. f_equal.
  by destruct (SoundPlayer.bufferSource x).
Qed.

(** ** Tempo and beats *)

Lemma beatsToSec_setTempo value beats e :
  AudioEngine.beatsToSec beats (AudioEngine.setTempo value e)
  = ((60 / value) * beats)%float.
Proof. reflexivity. Qed.

Lemma beatsToSec_changeTempo value beats e :
  AudioEngine.beatsToSec beats (AudioEngine.changeTempo value e)
  = ((60 / (Engine.currentTempo e + value)) * beats)%float.
Proof. reflexivity. Qed.

Example beatsToSec_initial_tempo :
  AudioEngine.beatsToSec 2%float AudioEngine.new = 2%float.
Proof. reflexivity. Qed.

Example beatsToSec_at_90_bpm :
  AudioEngine.beatsToSec 3%float (AudioEngine.setTempo 90%float AudioEngine.new)
  = 2%float.
Proof. reflexivity. Qed.

(** C4: for every tempo > 0 and every beats >= 0, [beatsToSec beats]
    returns exactly [(60 / tempo) * beats], where [tempo] is the engine's
    beats-per-minute value at the time of the call. *)
Theorem beatsToSec_exact (e : Engine.t) (tempo beats : float) :
  Engine.currentTempo e = tempo →
  (0 <? tempo)%float = true →
  (0 <=? beats)%float = true →
  AudioEngine.beatsToSec beats e = ((60 / tempo) * beats)%float.
Proof. intros <- _ _. reflexivity. Qed.

Lemma beatsToSec_exact_witness :
  AudioEngine.beatsToSec 3%float (AudioEngine.setTempo 90%float AudioEngine.new)
  = ((60 / 90) * 3)%float.
Proof.
  apply (beatsToSec_exact (AudioEngine.setTempo 90%float AudioEngine.new)
           90%float 3%float); reflexivity.
Defined.

(** ** Timers: what the operations do to the requested timeouts *)

Lemma playSound_frame md5 this s :
  let '(_, _, s') := AudioPlayer.playSound md5 this s in
  timers s' = timers s ∧ audioEngine s' = audioEngine s.
Proof.
  unfold AudioPlayer.playSound.
  destruct (Engine.audioBuffers (audioEngine s) !! md5); [|done].
  destruct (AudioPlayer.make_player _ _) as [player warns].
  by destruct (SoundPlayer.finished player).
Qed.

Lemma waitForBeats_timers beats s :
  timers (AudioEngine.waitForBeats beats s).1
  = timers s ++ [(AudioEngine.beatsToSec beats (audioEngine s) * 1000)%float].
Proof. reflexivity. Qed.

Section Timers.

Context `{MathLib}.

Lemma with_actor_timers_prefix a f w :
  (∀ p s, timers s `prefix_of` timers (f p s).2) →
  timers (store w) `prefix_of` timers (store (with_actor a f w)).
Proof.
  intros Hf. unfold with_actor. destruct (actors w !! a) as [p|]; [|done].
  specialize (Hf p (store w)). by destruct (f p (store w)).
Qed.

(** No operation removes or rewrites a timeout that was already
    requested. *)
Lemma exec_timers_prefix o w :
  timers (store w) `prefix_of` timers (store (exec o w)).
Proof.
  destruct o; simpl;
    try (apply with_actor_timers_prefix; intros p s; simpl);
    try done.
  - match goal with |- context [AudioPlayer.playSound ?m p s] =>
      pose proof (playSound_frame m p s) as Hfr;
      destruct (AudioPlayer.playSound m p s) as [[ret p'] s'] end.
    destruct Hfr as [Ht _]. simpl. by rewrite Ht.
  - unfold AudioPlayer.playDrumForBeats.
    destruct (DrumPlayer.play _ _ _) as [[d warns]|e]; simpl; [|done].
    by apply prefix_app_r.
  - unfold AudioPlayer.setEffect. repeat case_decide; simpl; done.
  - unfold AudioEngine.decodeSound. repeat case_decide; simpl; done.
  - by apply prefix_app_r.
  - by apply prefix_app_r.
  - by destruct outcome.
Qed.

Lemma run_timers_prefix ops w :
  timers (store w) `prefix_of` timers (store (run ops w)).
Proof.
  revert w. induction ops as [|o ops IH]; intros w; simpl; [done|].
  etrans; [apply exec_timers_prefix|apply IH].
Qed.

(** C5: the duration of a [waitForBeats beats] wait is fixed from the
    tempo current at the moment of the call: whatever is done afterwards
    ([setTempo] and [changeTempo] included), the timeout requested by the
    call keeps the delay computed from the tempo at the call; a wait
    started after a [setTempo] or a [changeTempo] uses the new tempo. *)
Theorem waitForBeats_delay_fixed (w : World) (beats : float) (ops : list Op) :
  let tempo := Engine.currentTempo (audioEngine (store w)) in
  let t := length (timers (store w)) in
  let w1 := exec (Call_waitForBeats beats) w in
  let w2 := run ops w1 in
  timers (store w1) !! t = Some (((60 / tempo) * beats) * 1000)%float
  ∧ timers (store w2) !! t = Some (((60 / tempo) * beats) * 1000)%float
  ∧ ∀ value beats',
      let tempo2 := Engine.currentTempo (audioEngine (store w2)) in
      let w3 := exec (Call_waitForBeats beats') (exec (Call_setTempo value) w2) in
      let w4 := exec (Call_waitForBeats beats') (exec (Call_changeTempo value) w2) in
      timers (store w3) !! t = Some (((60 / tempo) * beats) * 1000)%float
      ∧ timers (store w3) !! length (timers (store w2))
        = Some (((60 / value) * beats') * 1000)%float
      ∧ timers (store w4) !! t = Some (((60 / tempo) * beats) * 1000)%float
      ∧ timers (store w4) !! length (timers (store w2))
        = Some (((60 / (tempo2 + value)) * beats') * 1000)%float.
Proof.
  intros tempo t w1 w2.
  assert (Ht1 : timers (store w1) !! t = Some (((60 / tempo) * beats) * 1000)%float).
  { subst w1 t tempo. simpl. rewrite lookup_app_r by done.
    by rewrite Nat.sub_diag. }
  assert (Ht2 : timers (store w2) !! t = Some (((60 / tempo) * beats) * 1000)%float).
  { eapply prefix_lookup_Some; [exact Ht1|]. apply run_timers_prefix. }
  split; [done|]. split; [done|]. intros value beats' tempo2 w3 w4.
  subst w3 w4. simpl. repeat split.
  - by apply lookup_app_l_Some.
  - rewrite lookup_app_r by done. by rewrite Nat.sub_diag.
  - by apply lookup_app_l_Some.
  - rewrite lookup_app_r by done. by rewrite Nat.sub_diag.
Qed.

End Timers.

Example tempo_change_during_wait :
  timers (store (@run pow_basic
     [Call_waitForBeats 2%float; Call_setTempo 120%float; Call_waitForBeats 2%float]
     init))
  = [2000%float; 1000%float].
Proof. reflexivity. Qed.

(** ** Unknown sounds and failed decodes *)

Lemma playSound_no_buffer md5 this s :
  Engine.audioBuffers (audioEngine s) !! md5 = None →
  AudioPlayer.playSound md5 this s = (RetUndefined, this, s).
Proof. intros Hnone. unfold AudioPlayer.playSound. by rewrite Hnone. Qed.

(** C6: for every sound identity with no registered buffer in the engine's
    cache, [playSound] returns no playback handle ([undefined], and not a
    promise), creates no [SoundPlayer] and registers nothing: the heap,
    the registry, the log and indeed the whole actor and shared state are
    exactly as before. *)
Theorem playSound_unknown (md5 : string) (this : AudioPlayer.t) (s : Store) :
  Engine.audioBuffers (audioEngine s) !! md5 = None →
  let '(ret, this', s') := AudioPlayer.playSound md5 this s in
  ret = RetUndefined
  ∧ heap s' = heap s
  ∧ AudioPlayer.activeSoundPlayers this' = AudioPlayer.activeSoundPlayers this
  ∧ log s' = log s
  ∧ this' = this
  ∧ s' = s.
Proof. intros Hnone. by rewrite playSound_no_buffer. Qed.

Lemma playSound_unknown_witness :
  let '(ret, this', s') := AudioPlayer.playSound "meow.wav" first_actor (store init) in
  ret = RetUndefined
  ∧ heap s' = []
  ∧ AudioPlayer.activeSoundPlayers this' = ∅
  ∧ log s' = []
  ∧ this' = first_actor
  ∧ s' = store init.
Proof. apply (playSound_unknown "meow.wav" first_actor (store init)). reflexivity. Defined.

Lemma decodeSound_unknown_format sound s :
  format sound ≠ "" → format sound ≠ "adpcm" →
  AudioEngine.decodeSound sound s = (None, log_warn ["unknown sound format"] s).
Proof.
  intros H1 H2. unfold AudioEngine.decodeSound.
  by rewrite !decide_False.
Qed.

Lemma decodeSound_known_format sound s :
  format sound = "" ∨ format sound = "adpcm" →
  ∃ l, AudioEngine.decodeSound sound s = (Some l, s).
Proof.
  intros [Hf|Hf]; unfold AudioEngine.decodeSound; rewrite Hf; simpl; eauto.
Qed.

(** C7: [decodeSound] on an asset whose format is neither [""] nor
    ["adpcm"] logs a warning and returns without registering a buffer;
    when decoding fails, the callback logs a warning and the cache is left
    as it was; in both cases a later [playSound] for an identity that had
    no buffer behaves exactly as for an unknown sound. *)
Theorem decode_failure_registers_nothing
    (sound : Sound) (s : Store) (error : string) (this : AudioPlayer.t) :
  Engine.audioBuffers (audioEngine s) !! md5 sound = None →
  (format sound ≠ "" → format sound ≠ "adpcm" →
     let '(ret, s') := AudioEngine.decodeSound sound s in
     ret = None
     ∧ log s' = log s ++ ["unknown sound format"]
     ∧ Engine.audioBuffers (audioEngine s') = Engine.audioBuffers (audioEngine s)
     ∧ AudioPlayer.playSound (md5 sound) this s' = (RetUndefined, this, s'))
  ∧ (let s' := AudioEngine.decodeSound_then sound (Failed error) s in
     log s' = log s ++ ["audio data could not be decoded"]
     ∧ Engine.audioBuffers (audioEngine s') = Engine.audioBuffers (audioEngine s)
     ∧ AudioPlayer.playSound (md5 sound) this s' = (RetUndefined, this, s')).
Proof.
  intros Hnone. split.
  - intros H1 H2. rewrite decodeSound_unknown_format by done.
    repeat split. by apply playSound_no_buffer.
  - simpl. repeat split. by apply playSound_no_buffer.
Qed.

Lemma decode_failure_registers_nothing_witness :
  let sound := {| data := []; format := "mp3"; md5 := "meow.mp3" |} in
  let this := first_actor in
  let s := store init in
  (AudioEngine.decodeSound sound s).1 = None
  ∧ AudioPlayer.playSound "meow.mp3" this (AudioEngine.decodeSound sound s).2
    = (RetUndefined, this, (AudioEngine.decodeSound sound s).2).
Proof.
  intros sound this s.
  destruct (decode_failure_registers_nothing sound s "bad header" this eq_refl)
    as [Hfmt _].
  assert (H1 : format sound ≠ "") by discriminate.
  assert (H2 : format sound ≠ "adpcm") by discriminate.
  specialize (Hfmt H1 H2).
  destruct (AudioEngine.decodeSound sound s) as [ret s'].
  destruct Hfmt as (Hret & _ & _ & Hplay). split; [exact Hret|exact Hplay].
Defined.

(** A successful decode does register the buffer, so the failure cases
    above are the only ones that leave the identity unknown. *)
Lemma decodeSound_then_fulfilled sound b s :
  Engine.audioBuffers
    (audioEngine (AudioEngine.decodeSound_then sound (Fulfilled b) s)) !! md5 sound
  = Some b.
Proof. simpl. apply lookup_insert_eq. Qed.

(** ** Volume and clearEffects *)

Section Effects.

Context `{MathLib}.

(** C10: [clearEffects] resets the pan to 0 and the pitch to 0 and also
    sets the gain of the actor's effects node to 1, the value
    [setVolume 100] gives it: a volume set by [setVolume] does not
    survive a [clearEffects]. *)
Theorem clearEffects_resets_volume (this : AudioPlayer.t) (s : Store) (value : float) :
  let this' := (AudioPlayer.clearEffects (AudioPlayer.setVolume value this) s).1 in
  gain_value (AudioPlayer.effectsNode this') = 1%float
  ∧ gain_value (AudioPlayer.effectsNode this')
    = gain_value (AudioPlayer.effectsNode (AudioPlayer.setVolume 100%float this))
  ∧ PanEffect.value (AudioPlayer.panEffect this') = 0%float
  ∧ PitchEffect.value (AudioPlayer.pitchEffect this') = 0%float.
Proof. repeat split. Qed.

End Effects.

Example volume_lost_by_clearEffects :
  let this := first_actor in
  let s := store init in
  let quiet := AudioPlayer.setVolume 50%float this in
  gain_value (AudioPlayer.effectsNode quiet) = 0.5%float
  ∧ gain_value (AudioPlayer.effectsNode (@AudioPlayer.clearEffects pow_basic quiet s).1)
    = 1%float.
Proof. split; reflexivity. Qed.

(** ** Starting a player *)

Lemma make_player_outputNode b this :
  SoundPlayer.outputNode (AudioPlayer.make_player b this).1
  = Some (gain_node (AudioPlayer.effectsNode this)).
Proof. unfold AudioPlayer.make_player, SoundPlayer.start; simpl. by destruct (loaded b). Qed.

Lemma make_player_isPlaying b this :
  SoundPlayer.isPlaying (AudioPlayer.make_player b this).1 = loaded b.
Proof. unfold AudioPlayer.make_player, SoundPlayer.start; simpl. by destruct (loaded b). Qed.

Lemma make_player_not_loaded b this :
  loaded b = false →
  SoundPlayer.bufferSource (AudioPlayer.make_player b this).1 = None
  ∧ (AudioPlayer.make_player b this).2 = [SoundPlayer.not_loaded_warning].
Proof.
  intros Hb. unfold AudioPlayer.make_player, SoundPlayer.start; simpl.
  by rewrite Hb.
Qed.

Lemma make_player_loaded b this :
  loaded b = true →
  (∃ src, SoundPlayer.bufferSource (AudioPlayer.make_player b this).1 = Some src
          ∧ bs_started src = true ∧ bs_stopped src = false
          ∧ bs_playbackRate src = PitchEffect.ratio (AudioPlayer.pitchEffect this))
  ∧ (AudioPlayer.make_player b this).2 = [].
Proof.
  intros Hb. unfold AudioPlayer.make_player, SoundPlayer.start; simpl.
  rewrite Hb; simpl. eauto 10.
Qed.

Lemma finished_isPlaying player :
  SoundPlayer.isPlaying (SoundPlayer.finished player).1 = SoundPlayer.isPlaying player.
Proof.
  unfold SoundPlayer.finished, new_Promise, SoundPlayer.finished_executor.
  by destruct (SoundPlayer.bufferSource player).
Qed.

Lemma finished_outputNode player :
  SoundPlayer.outputNode (SoundPlayer.finished player).1 = SoundPlayer.outputNode player.
Proof.
  unfold SoundPlayer.finished, new_Promise, SoundPlayer.finished_executor.
  by destruct (SoundPlayer.bufferSource player).
Qed.

Lemma finished_without_source player :
  SoundPlayer.bufferSource player = None →
  SoundPlayer.finished player
  = (player, Rejected (TypeError "Cannot set property 'onended' of null")).
Proof.
  intros Hsrc. unfold SoundPlayer.finished, new_Promise, SoundPlayer.finished_executor.
  by rewrite Hsrc.
Qed.

Lemma finished_with_source player src :
  SoundPlayer.bufferSource player = Some src →
  (SoundPlayer.finished player).2 = Pending.
Proof.
  intros Hsrc. unfold SoundPlayer.finished, new_Promise, SoundPlayer.finished_executor.
  by rewrite Hsrc.
Qed.

Lemma stop_previous_length md5 this h : length (stop_previous md5 this h) = length h.
Proof.
  unfold stop_previous. destruct (_ !! md5); [apply update_length|done].
Qed.

(** [playSound] for a registered buffer, step by step. *)
Lemma playSound_registered md5 this s b :
  Engine.audioBuffers (audioEngine s) !! md5 = Some b →
  let h1 := stop_previous md5 this (heap s) in
  let made := AudioPlayer.make_player b this in
  let r := length (heap s) in
  let h2 := h1 ++ [ {| obj := made.1; sound := md5 |} ] in
  let fin := SoundPlayer.finished made.1 in
  AudioPlayer.playSound md5 this s
  = (RetPromise fin.2,
     AudioPlayer.set_activeSoundPlayers
       (AudioPlayer.prune h2 (<[md5 := r]> (AudioPlayer.activeSoundPlayers this))) this,
     set_heap (update r (λ _, fin.1) h2) (log_warn made.2 s)).
Proof.
  intros Hb h1 made r h2 fin. unfold AudioPlayer.playSound. rewrite Hb.
  subst h1 made r h2 fin. unfold stop_previous.
  destruct (AudioPlayer.make_player b this) as [player warns]; simpl.
  destruct (SoundPlayer.finished player) as [player' promise]; simpl.
  destruct (AudioPlayer.activeSoundPlayers this !! md5); simpl;
    by rewrite ?update_length.
Qed.

(** After the new cell is in the heap, installing the [onended] handler
    does not change who is playing. *)
Lemma is_playing_after_finished h player snd r' :
  is_playing (update (length h) (λ _, (SoundPlayer.finished player).1)
                (h ++ [ {| obj := player; sound := snd |} ])) r'
  = is_playing (h ++ [ {| obj := player; sound := snd |} ]) r'.
Proof.
  unfold is_playing. destruct (decide (length h = r')) as [<-|Hne].
  - rewrite update_lookup, list_lookup_middle by done. simpl.
    apply finished_isPlaying.
  - by rewrite update_lookup_ne.
Qed.

(** ** A buffer that is registered but not loaded *)

(** C2 (what the code does): when the buffer registered for the sound is
    not loaded, [start] logs a warning and starts nothing, and the call
    returns normally; but the promise it returns is rejected with the
    [TypeError] raised in [finished], which dereferences the missing
    [bufferSource] without the test that [stop] and [setPlaybackRate]
    make. *)
Theorem playSound_not_loaded (md5 : string) (this : AudioPlayer.t) (s : Store) (b : ToneBuffer) :
  Engine.audioBuffers (audioEngine s) !! md5 = Some b →
  loaded b = false →
  ∃ this' s',
    AudioPlayer.playSound md5 this s
    = (RetPromise (Rejected (TypeError "Cannot set property 'onended' of null")),
       this', s')
    ∧ log s' = log s ++ [SoundPlayer.not_loaded_warning]
    ∧ is_playing (heap s') (length (heap s)) = false.
Proof.
  intros Hb Hl. rewrite (playSound_registered _ _ _ _ Hb).
  destruct (make_player_not_loaded b this Hl) as [Hsrc Hw].
  rewrite (finished_without_source _ Hsrc). simpl.
  eexists _, _. split; [reflexivity|]. simpl. rewrite Hw. split; [done|].
  rewrite <- (stop_previous_length md5 this (heap s)).
  unfold is_playing. rewrite update_lookup, list_lookup_middle by done. simpl.
  rewrite make_player_isPlaying. done.
Qed.

Lemma playSound_not_loaded_witness :
  ∃ this' s',
    AudioPlayer.playSound "meow.wav" first_actor unloaded_store
    = (RetPromise (Rejected (TypeError "Cannot set property 'onended' of null")),
       this', s')
    ∧ log s' = log unloaded_store ++ [SoundPlayer.not_loaded_warning]
    ∧ is_playing (heap s') (length (heap unloaded_store)) = false.
Proof.
  apply (playSound_not_loaded "meow.wav" first_actor unloaded_store
           {| loaded := false; samples := [] |}); reflexivity.
Defined.

(** ** The registry after playSound *)

Lemma prune_lookup_Some h players id r :
  AudioPlayer.prune h players !! id = Some r
  ↔ players !! id = Some r ∧ is_playing h r = true.
Proof. unfold AudioPlayer.prune. by rewrite map_lookup_filter_Some. Qed.

(** C9 (amended): after a call to [playSound] for a sound whose buffer is
    registered, every player left in the actor's registry is playing; when
    the buffer was not loaded, the new player (which is not playing) is in
    the heap but no longer in the registry, and the sound has no entry. *)
Theorem playSound_registry_all_playing
    (md5 : string) (this : AudioPlayer.t) (s : Store) (b : ToneBuffer) :
  Engine.audioBuffers (audioEngine s) !! md5 = Some b →
  let '(_, this', s') := AudioPlayer.playSound md5 this s in
  registry_all_playing this' s'
  ∧ (loaded b = false →
       length (heap s') = S (length (heap s))
       ∧ is_playing (heap s') (length (heap s)) = false
       ∧ (∀ id, AudioPlayer.activeSoundPlayers this' !! id ≠ Some (length (heap s)))
       ∧ AudioPlayer.activeSoundPlayers this' !! md5 = None).
Proof.
  intros Hb. rewrite (playSound_registered _ _ _ _ Hb). simpl.
  pose proof (stop_previous_length md5 this (heap s)) as Hlen.
  set (h1 := stop_previous md5 this (heap s)) in *.
  set (made := AudioPlayer.make_player b this).
  assert (Hnew : ∀ r', is_playing
            (update (length (heap s)) (λ _, (SoundPlayer.finished made.1).1)
               (h1 ++ [ {| obj := made.1; sound := md5 |} ])) r'
          = is_playing (h1 ++ [ {| obj := made.1; sound := md5 |} ]) r').
  { intros r'. rewrite <- Hlen. apply is_playing_after_finished. }
  split.
  - intros id r [_ Hplay]%prune_lookup_Some. simpl. by rewrite Hnew.
  - intros Hl.
    assert (Hquiet : is_playing (h1 ++ [ {| obj := made.1; sound := md5 |} ])
                       (length (heap s)) = false).
    { unfold is_playing. rewrite <- Hlen, list_lookup_middle by done. simpl.
      subst made. by rewrite make_player_isPlaying. }
    split; [|split; [|split]].
    + by rewrite update_length, length_app, Hlen, Nat.add_1_r.
    + by rewrite Hnew.
    + intros id [_ Hplay]%prune_lookup_Some. congruence.
    + destruct (AudioPlayer.prune _ _ !! md5) as [r|] eqn:Hr; [|done].
      apply prune_lookup_Some in Hr as [Hins Hplay].
      rewrite lookup_insert_eq in Hins. injection Hins as <-. congruence.
Qed.

Lemma playSound_registry_all_playing_witness :
  let '(_, this', s') := AudioPlayer.playSound "meow.wav" first_actor unloaded_store in
  registry_all_playing this' s'
  ∧ (false = false →
       length (heap s') = S (length (heap unloaded_store))
       ∧ is_playing (heap s') (length (heap unloaded_store)) = false
       ∧ (∀ id, AudioPlayer.activeSoundPlayers this' !! id
                ≠ Some (length (heap unloaded_store)))
       ∧ AudioPlayer.activeSoundPlayers this' !! "meow.wav" = None).
Proof.
  apply (playSound_registry_all_playing "meow.wav" first_actor unloaded_store
           {| loaded := false; samples := [] |}).
  reflexivity.
Defined.

(** C9 as stated fails: a call to [playSound] that returns at the
    unknown-sound test does not prune, so a stopped player stays in the
    registry. *)
Lemma stale_player_after_unknown_sound :
  ¬ (∀ (ops : list Op) (a : nat) (md5 : string) (p : AudioPlayer.t),
       let w := @exec pow_basic (Call_playSound a md5) (@run pow_basic ops init) in
       actors w !! a = Some p → registry_all_playing p (store w)).
Proof.
  intros Hclaim.
  specialize (Hclaim stale_history 0 "woof.wav").
  destruct (actors (@exec pow_basic (Call_playSound 0 "woof.wav")
                      (@run pow_basic stale_history init)) !! 0)
    as [p|] eqn:Hp; [|by vm_compute in Hp].
  specialize (Hclaim p Hp "meow.wav" 0).
  vm_compute in Hp. injection Hp as <-.
  assert (Hstale : is_playing
            (heap (store (@exec pow_basic (Call_playSound 0 "woof.wav")
                            (@run pow_basic stale_history init)))) 0 = false)
    by (vm_compute; reflexivity).
  rewrite Hstale in Hclaim. discriminate Hclaim. vm_compute. reflexivity.
Qed.

(** ** The pitch effect *)

Section Pitch.

Context `{MathLib}.

Lemma setEffect_pitch value this s :
  AudioPlayer.setEffect "pitch" value this s
  = (AudioPlayer.set_pitchEffect
       {| PitchEffect.value := value; PitchEffect.ratio := PitchEffect.getRatio value |}
       this,
     set_heap
       (for_each (SoundPlayer.setPlaybackRate (PitchEffect.getRatio value))
          (AudioPlayer.activeSoundPlayers this) (heap s)) s).
Proof. reflexivity. Qed.

Lemma for_each_length f players h : length (for_each f players h) = length h.
Proof.
  unfold for_each. induction (map_to_list players) as [|kv l IH]; [done|].
  simpl. by rewrite update_length.
Qed.

(** C3: setting the pitch effect to [p] derives the rate
    [2^(p/120)] (so [p = 120] gives exactly 2, on a host whose
    [Math.pow(2, 1)] is 2) and re-applies it at once to every player of
    the actor's registry: the player's rate and the rate of its running
    source are set, and nothing else about the player or its source
    changes, so it is not restarted. *)
Theorem setEffect_pitch_retunes (this : AudioPlayer.t) (s : Store) (p : float) :
  Math_pow 2%float 1%float = 2%float →
  let '(this', s') := AudioPlayer.setEffect "pitch" p this s in
  let rate := PitchEffect.ratio (AudioPlayer.pitchEffect this') in
  rate = Math_pow 2%float (p / 120)%float
  ∧ (p = 120%float → rate = 2%float)
  ∧ AudioPlayer.activeSoundPlayers this' = AudioPlayer.activeSoundPlayers this
  ∧ length (heap s') = length (heap s)
  ∧ ∀ md5 r c,
      AudioPlayer.activeSoundPlayers this !! md5 = Some r →
      heap s !! r = Some c →
      ∃ c', heap s' !! r = Some c'
            ∧ SoundPlayer.playbackRate (obj c') = rate
            ∧ SoundPlayer.bufferSource (obj c')
              = bs_set_rate rate <$> SoundPlayer.bufferSource (obj c)
            ∧ SoundPlayer.isPlaying (obj c') = SoundPlayer.isPlaying (obj c)
            ∧ SoundPlayer.buffer (obj c') = SoundPlayer.buffer (obj c)
            ∧ SoundPlayer.outputNode (obj c') = SoundPlayer.outputNode (obj c)
            ∧ sound c' = sound c.
Proof.
  intros Hpow. rewrite setEffect_pitch. simpl.
  split; [done|]. split.
  { intros ->. unfold PitchEffect.getRatio.
    by change (120 / 120)%float with 1%float. }
  split; [done|]. split; [apply for_each_length|].
  intros md5 r c Hr Hc.
  exists (on_obj (SoundPlayer.setPlaybackRate (PitchEffect.getRatio p)) c).
  split; [|done].
  erewrite for_each_lookup_in; [by rewrite Hc| |exact Hr].
  intros x. apply setPlaybackRate_idem.
Qed.

End Pitch.

Lemma setEffect_pitch_retunes_witness :
  let '(this', s') :=
    @AudioPlayer.setEffect pow_basic "pitch" 120%float playing_actor (store playing_world) in
  PitchEffect.ratio (AudioPlayer.pitchEffect this') = 2%float
  ∧ ∃ c', heap s' !! 0 = Some c'
          ∧ SoundPlayer.playbackRate (obj c') = 2%float
          ∧ (bs_playbackRate <$> SoundPlayer.bufferSource (obj c')) = Some 2%float
          ∧ SoundPlayer.isPlaying (obj c') = true.
Proof.
  pose proof (@setEffect_pitch_retunes pow_basic playing_actor (store playing_world)
                120%float eq_refl) as Hthm.
  destruct (@AudioPlayer.setEffect pow_basic "pitch" 120%float playing_actor
              (store playing_world)) as [this' s'].
  destruct Hthm as (_ & Hoct & _ & _ & Hplayers).
  split; [by apply Hoct|].
  destruct (heap (store playing_world) !! 0) as [c|] eqn:Hc;
    [|by vm_compute in Hc].
  destruct (Hplayers "meow.wav" 0 c) as (c' & Hc' & Hrate & Hsrc & Hplay & _);
    [by vm_compute|done|].
  exists c'. rewrite Hc', Hrate, Hsrc, Hplay, (Hoct eq_refl).
  vm_compute in Hc. injection Hc as <-. by vm_compute.
Defined.

(** ** stopAllSounds *)

Lemma stopAllSounds_unfold this s :
  AudioPlayer.stopAllSounds this s
  = {| audioEngine :=
         AudioEngine.set_drumPlayer
           (DrumPlayer.stopAll (Engine.drumPlayer (audioEngine s)))
           (AudioEngine.set_instrumentPlayer
              (InstrumentPlayer.stopAll (Engine.instrumentPlayer (audioEngine s)))
              (audioEngine s));
       heap := for_each SoundPlayer.stop (AudioPlayer.activeSoundPlayers this) (heap s);
       timers := timers s;
       log := log s |}.
Proof. reflexivity. Qed.

Lemma DrumPlayer_stopAll_silent d i sp :
  DrumPlayer.drumSounds (DrumPlayer.stopAll d) !! i = Some sp →
  SoundPlayer.isPlaying sp = false
  ∧ ∀ src, SoundPlayer.bufferSource sp = Some src → bs_stopped src = true.
Proof.
  simpl. rewrite list_lookup_fmap.
  destruct (DrumPlayer.drumSounds d !! i) as [sp0|]; [|done].
  intros [= <-]. split; [done|]. simpl.
  destruct (SoundPlayer.bufferSource sp0); [|done]. by intros src [= <-].
Qed.

Lemma InstrumentPlayer_stopAll_silent ip n :
  n ∈ InstrumentPlayer.notes (InstrumentPlayer.stopAll ip) →
  InstrumentPlayer.sounding n = false.
Proof. simpl. by intros (n0 & -> & _)%list_elem_of_fmap. Qed.

Section StopAll.

Context `{MathLib}.

(** What [stopAllSounds] reaches: every player of the actor's registry,
    and, through [stopAll] on the two shared banks, the current source of
    every drum player and every note of the instrument bank, whichever
    actor started them. *)
Lemma stopAllSounds_reach (w : World) (a : nat) (this : AudioPlayer.t) :
  actors w !! a = Some this →
  let w' := exec (Call_stopAllSounds a) w in
  let e := audioEngine (store w) in
  let e' := audioEngine (store w') in
  (∀ md5 r c,
      AudioPlayer.activeSoundPlayers this !! md5 = Some r →
      heap (store w) !! r = Some c →
      ∃ c', heap (store w') !! r = Some c'
            ∧ SoundPlayer.isPlaying (obj c') = false
            ∧ SoundPlayer.bufferSource (obj c')
              = bs_stop <$> SoundPlayer.bufferSource (obj c))
  ∧ Engine.instrumentPlayer e' = InstrumentPlayer.stopAll (Engine.instrumentPlayer e)
  ∧ Engine.drumPlayer e' = DrumPlayer.stopAll (Engine.drumPlayer e)
  ∧ (∀ i sp, DrumPlayer.drumSounds (Engine.drumPlayer e') !! i = Some sp →
             SoundPlayer.isPlaying sp = false
             ∧ ∀ src, SoundPlayer.bufferSource sp = Some src → bs_stopped src = true)
  ∧ (∀ n, n ∈ InstrumentPlayer.notes (Engine.instrumentPlayer e') →
          InstrumentPlayer.sounding n = false).
Proof.
  intros Ha. simpl. unfold with_actor. rewrite Ha.
  rewrite stopAllSounds_unfold. simpl.
  split; [|split; [done|split; [done|split]]].
  - intros md5 r c Hr Hc. exists (on_obj SoundPlayer.stop c).
    split; [|done].
    erewrite for_each_lookup_in; [by rewrite Hc|apply stop_idem|exact Hr].
  - apply DrumPlayer_stopAll_silent.
  - apply InstrumentPlayer_stopAll_silent.
Qed.

End StopAll.

Example drum_of_other_actor_is_playing :
  let w := @run pow_basic drum_history init in
  (SoundPlayer.isPlaying <$> DrumPlayer.drumSounds (Engine.drumPlayer (audioEngine (store w))) !! 3)
  = Some true
  ∧ (SoundPlayer.outputNode <$> DrumPlayer.drumSounds (Engine.drumPlayer (audioEngine (store w))) !! 3)
    = Some (Some (EffectsNode 1)).
Proof. split; reflexivity. Qed.

Example stopAllSounds_reach_two_actors :
  let w := @run pow_basic drum_history init in
  let w' := @exec pow_basic (Call_stopAllSounds 0) w in
  (SoundPlayer.isPlaying <$> DrumPlayer.drumSounds (Engine.drumPlayer (audioEngine (store w'))) !! 3)
  = Some false
  ∧ Forall (λ n, InstrumentPlayer.sounding n = false)
      (InstrumentPlayer.notes (Engine.instrumentPlayer (audioEngine (store w')))).
Proof.
  intros w w'.
  destruct (actors w !! 0) as [this|] eqn:Ha; [|by vm_compute in Ha].
  destruct (@stopAllSounds_reach pow_basic w 0 this Ha)
    as (_ & _ & _ & Hdrums & Hnotes).
  fold w' in Hdrums, Hnotes. split.
  - destruct (DrumPlayer.drumSounds (Engine.drumPlayer (audioEngine (store w'))) !! 3)
      as [sp|] eqn:Hsp; [|by vm_compute in Hsp].
    simpl. f_equal. by apply (Hdrums 3 sp).
  - apply Forall_forall. exact Hnotes.
Defined.

(** ** At most one playing instance of a sound per actor *)

Lemma quiet_stop : quiet SoundPlayer.stop.
Proof. intros x Hx. discriminate Hx. Qed.

Lemma quiet_setPlaybackRate rate : quiet (SoundPlayer.setPlaybackRate rate).
Proof. intros x Hx. done. Qed.

Lemma quiet_onended : quiet SoundPlayer.onended.
Proof.
  intros x. unfold SoundPlayer.onended.
  destruct (SoundPlayer.bufferSource x) as [src|]; [|done].
  by destruct (bs_onended src).
Qed.

Lemma quieter_refl h : quieter h h.
Proof. split; [done|]. intros r c Hc Hp. eauto. Qed.

Lemma quieter_trans h1 h2 h3 : quieter h1 h2 → quieter h2 h3 → quieter h1 h3.
Proof.
  intros [Hl12 H12] [Hl23 H23]. split; [lia|]. intros r c3 Hc3 Hp3.
  destruct (H23 r c3 Hc3 Hp3) as (c2 & Hc2 & Hp2 & Ho2 & Hs2).
  destruct (H12 r c2 Hc2 Hp2) as (c1 & Hc1 & Hp1 & Ho1 & Hs1).
  exists c1. repeat split; congruence.
Qed.

Lemma quieter_update r f h : quiet f → quieter h (update r f h).
Proof.
  intros Hf. split; [by rewrite update_length|].
  intros r' c' Hc' Hp'. destruct (decide (r = r')) as [<-|Hne].
  - rewrite update_lookup in Hc'.
    destruct (h !! r) as [c|]; [|done]. injection Hc' as <-.
    destruct (Hf (obj c) Hp') as [Hp Ho]. exists c. done.
  - rewrite update_lookup_ne in Hc' by done. eauto.
Qed.

Lemma quieter_for_each f players h : quiet f → quieter h (for_each f players h).
Proof.
  intros Hf. unfold for_each.
  induction (map_to_list players) as [|kv l IH]; [apply quieter_refl|].
  simpl. eapply quieter_trans; [exact IH|]. by apply quieter_update.
Qed.

Lemma Inv_quieter w w' :
  Inv w →
  (∀ a p', actors w' !! a = Some p' →
           ∃ p, actors w !! a = Some p ∧ same_identity p p') →
  (∀ a p, actors w !! a = Some p →
          ∃ p', actors w' !! a = Some p' ∧ same_identity p p') →
  quieter (heap (store w)) (heap (store w')) →
  Inv w'.
Proof.
  intros [Hnodes Hrefs Hplaying] Hback Hforth [Hlen Hq]. split.
  - intros a p' Hp'. destruct (Hback a p' Hp') as (p & Hp & Hid & _).
    rewrite <- Hid. eauto.
  - intros a p' X r Hp' Hr. destruct (Hback a p' Hp') as (p & Hp & _ & Hregs).
    rewrite <- Hregs in Hr. specialize (Hrefs a p X r Hp Hr). lia.
  - intros r c' Hc' Hplay.
    destruct (Hq r c' Hc' Hplay) as (c & Hc & Hp & Ho & Hs).
    destruct (Hplaying r c Hc Hp) as (a & p & Hout & Ha & Hreg).
    destruct (Hforth a p Ha) as (p' & Hp' & _ & Hregs).
    exists a, p'. rewrite <- Ho, <- Hs, <- Hregs. done.
Qed.

Lemma Inv_init : Inv init.
Proof. split; intros ? ?; simpl; by rewrite ?lookup_nil. Qed.

Section Invariant.

Context `{MathLib}.

Lemma with_actor_quiet a f w :
  Inv w →
  (∀ p s, same_identity p (f p s).1 ∧ quieter (heap s) (heap (f p s).2)) →
  Inv (with_actor a f w).
Proof.
  intros HI Hf. unfold with_actor.
  destruct (actors w !! a) as [p|] eqn:Ha; [|done].
  specialize (Hf p (store w)). destruct (f p (store w)) as [p' s'].
  destruct Hf as [Hid Hq]. simpl in Hid, Hq.
  apply (Inv_quieter w); [done| | |done]; simpl.
  - intros a' p'' [(<- & <- & _)|[Hne Hp'']]%list_lookup_insert_Some; eauto.
    exists p''. split; [done|]. by split.
  - intros a' p0 Hp0. destruct (decide (a = a')) as [<-|Hne].
    + exists p'. rewrite list_lookup_insert_eq by (by eapply lookup_lt_Some).
      split; [done|]. congruence.
    + exists p0. rewrite list_lookup_insert_ne by done. by repeat split.
Qed.

Lemma on_store_quiet f w :
  Inv w →
  (∀ s, quieter (heap s) (heap (f s))) →
  Inv (on_store f w).
Proof.
  intros HI Hf. apply (Inv_quieter w); [done| | |apply Hf]; simpl;
    intros a p Hp; exists p; by repeat split.
Qed.

Lemma createPlayer_inv w : Inv w → Inv (createPlayer w).
Proof.
  intros [Hnodes Hrefs Hplaying].
  unfold createPlayer, AudioPlayer.new, AudioPlayer.clearEffects.
  simpl. rewrite for_each_empty. split; simpl.
  - intros a p [[_ Hp]|[-> <-]]%lookup_snoc_Some; eauto.
  - intros a p X r [[_ Hp]|[-> <-]]%lookup_snoc_Some; simpl; [eauto|].
    by rewrite lookup_empty.
  - intros r c Hc Hplay.
    destruct (Hplaying r c Hc Hplay) as (a & p & Hout & Ha & Hreg).
    exists a, p. split; [done|]. split; [|done]. by apply lookup_app_l_Some.
Qed.

Lemma playSound_inv a md5 w :
  Inv w →
  Inv (with_actor a
         (λ p s, let '(_, p', s') := AudioPlayer.playSound md5 p s in (p', s')) w).
Proof.
  intros HI. unfold with_actor.
  destruct (actors w !! a) as [p|] eqn:Ha; [|done].
  destruct (Engine.audioBuffers (audioEngine (store w)) !! md5) as [b|] eqn:Hb.
  2:{ rewrite playSound_no_buffer by done. rewrite list_insert_id by done.
      by destruct w. }
  rewrite (playSound_registered _ _ _ _ Hb).
  destruct HI as [Hnodes Hrefs Hplaying].
  pose proof (stop_previous_length md5 p (heap (store w))) as Hlen.
  set (h1 := stop_previous md5 p (heap (store w))) in *.
  set (made := AudioPlayer.make_player b p).
  set (cell := {| obj := made.1; sound := md5 |}).
  set (players := AudioPlayer.prune (h1 ++ [cell])
                    (<[md5 := length (heap (store w))]> (AudioPlayer.activeSoundPlayers p))).
  assert (Hlookup_a : <[a := AudioPlayer.set_activeSoundPlayers players p]> (actors w) !! a
                      = Some (AudioPlayer.set_activeSoundPlayers players p)).
  { apply list_lookup_insert_eq. by eapply lookup_lt_Some. }
  split; simpl.
  - intros a' p' [(<- & <- & _)|[Hne Hp']]%list_lookup_insert_Some; simpl; eauto.
  - intros a' p' X r Hp' Hr.
    rewrite update_length, length_app, Hlen, Nat.add_1_r.
    apply list_lookup_insert_Some in Hp' as [(<- & <- & _)|[Hne Hp']].
    + simpl in Hr. subst players. apply prune_lookup_Some in Hr as [Hr _].
      apply lookup_insert_Some in Hr as [[_ <-]|[_ Hr]]; [lia|].
      specialize (Hrefs a p X r Ha Hr). lia.
    + specialize (Hrefs a' p' X r Hp' Hr). lia.
  - intros r c Hc Hplay.
    assert (Hplay2 : is_playing (h1 ++ [cell]) r = true).
    { rewrite <- Hlen in Hc. subst cell.
      rewrite <- (is_playing_after_finished h1 made.1 md5 r).
      unfold is_playing. by rewrite Hc. }
    destruct (decide (r = length (heap (store w)))) as [->|Hnew].
    + (* the new player *)
      rewrite <- Hlen, update_lookup, list_lookup_middle in Hc by done.
      injection Hc as <-. simpl in *.
      exists a, (AudioPlayer.set_activeSoundPlayers players p).
      rewrite finished_outputNode. subst made. rewrite make_player_outputNode.
      split; [f_equal; eauto|]. split; [done|]. simpl. subst players.
      apply prune_lookup_Some. split; [apply lookup_insert_eq|exact Hplay2].
    + (* a player that was there before *)
      rewrite update_lookup_ne in Hc by done.
      apply lookup_snoc_Some in Hc as [[_ Hc]|[Hr _]]; [|lia].
      assert (Hold : heap (store w) !! r = Some c
                     ∧ AudioPlayer.activeSoundPlayers p !! md5 ≠ Some r).
      { subst h1. unfold stop_previous in Hc.
        destruct (AudioPlayer.activeSoundPlayers p !! md5) as [r0|] eqn:Hr0;
          [|done].
        destruct (decide (r0 = r)) as [->|Hne].
        - rewrite update_lookup in Hc.
          destruct (heap (store w) !! r); [|done]. injection Hc as <-.
          discriminate Hplay.
        - rewrite update_lookup_ne in Hc by done. split; congruence. }
      destruct Hold as [Hc0 Hnot].
      destruct (Hplaying r c Hc0 Hplay) as (a' & p' & Hout & Ha' & Hreg).
      destruct (decide (a = a')) as [<-|Hne].
      * assert (p' = p) as -> by congruence.
        exists a, (AudioPlayer.set_activeSoundPlayers players p).
        split; [done|]. split; [done|]. simpl. subst players.
        apply prune_lookup_Some. split; [|done].
        rewrite lookup_insert_ne; [done|].
        intros Heq. by rewrite <- Heq in Hreg.
      * exists a', p'. split; [done|]. split; [|done].
        by rewrite list_lookup_insert_ne.
Qed.

End Invariant.

(** *** The sources of the players made by playSound *)

Lemma well_started_stop x : well_started x → well_started (SoundPlayer.stop x).
Proof. intros [He _]. split; [done|]. intros Hp. discriminate Hp. Qed.

Lemma well_started_setPlaybackRate rate x :
  well_started x → well_started (SoundPlayer.setPlaybackRate rate x).
Proof.
  intros [He Hp]. split; [done|]. simpl. intros Hplay.
  destruct (Hp Hplay) as (src & Hsrc & Hst & Hnst & Hh).
  exists (bs_set_rate rate src). by rewrite Hsrc.
Qed.

Lemma well_started_onended x : well_started x → well_started (SoundPlayer.onended x).
Proof.
  intros Hx. unfold SoundPlayer.onended.
  destruct (SoundPlayer.bufferSource x) as [src|]; [|exact Hx].
  destruct (bs_onended src); [|exact Hx].
  destruct Hx as [He _]. split; [done|]. intros Hplay. discriminate Hplay.
Qed.

Lemma well_started_update r f h :
  (∀ x, well_started x → well_started (f x)) →
  Forall (well_started ∘ obj) h → Forall (well_started ∘ obj) (update r f h).
Proof.
  intros Hf Hh. apply Forall_alter; [done|]. intros c _ Hc. by apply Hf.
Qed.

Lemma well_started_for_each f players h :
  (∀ x, well_started x → well_started (f x)) →
  Forall (well_started ∘ obj) h → Forall (well_started ∘ obj) (for_each f players h).
Proof.
  intros Hf Hh. unfold for_each.
  induction (map_to_list players) as [|kv l IH]; [done|].
  simpl. by apply well_started_update.
Qed.

(** The player [playSound] makes, once [finished] has run on it. *)
Lemma well_started_new_player b this :
  well_started (SoundPlayer.finished (AudioPlayer.make_player b this).1).1.
Proof.
  unfold AudioPlayer.make_player, SoundPlayer.start. simpl.
  destruct (loaded b); simpl.
  - split; [done|]. intros _. eexists. repeat split.
  - split; [done|]. intros Hp. discriminate Hp.
Qed.

Section Sources.

Context `{MathLib}.

Lemma with_actor_well_started a f w :
  (∀ p s, Forall (well_started ∘ obj) (heap s) →
          Forall (well_started ∘ obj) (heap (f p s).2)) →
  Forall (well_started ∘ obj) (heap (store w)) →
  Forall (well_started ∘ obj) (heap (store (with_actor a f w))).
Proof.
  intros Hf Hw. unfold with_actor. destruct (actors w !! a) as [p|]; [|done].
  specialize (Hf p (store w) Hw). by destruct (f p (store w)).
Qed.

Lemma playSound_well_started md5 p s :
  Forall (well_started ∘ obj) (heap s) →
  Forall (well_started ∘ obj)
    (heap (let '(_, p', s') := AudioPlayer.playSound md5 p s in (p', s')).2).
Proof.
  intros Hs.
  destruct (Engine.audioBuffers (audioEngine s) !! md5) as [b|] eqn:Hb.
  2:{ by rewrite playSound_no_buffer. }
  rewrite (playSound_registered _ _ _ _ Hb). simpl.
  rewrite <- (stop_previous_length md5 p (heap s)). unfold update.
  rewrite <- (Nat.add_0_r (length (stop_previous md5 p (heap s)))), alter_app_r.
  apply Forall_app. split.
  - unfold stop_previous.
    destruct (AudioPlayer.activeSoundPlayers p !! md5); [|done].
    apply well_started_update; [apply well_started_stop|done].
  - repeat constructor; apply well_started_new_player.
Qed.

Lemma exec_well_started o w :
  Forall (well_started ∘ obj) (heap (store w)) →
  Forall (well_started ∘ obj) (heap (store (exec o w))).
Proof.
  intros Hw. destruct o; simpl; try done.
  - apply with_actor_well_started; [|done]. intros p s. apply playSound_well_started.
  - apply with_actor_well_started; [|done]. intros p s Hs.
    unfold AudioPlayer.playDrumForBeats.
    by destruct (DrumPlayer.play _ _ _) as [[d warns]|e].
  - apply with_actor_well_started; [|done]. intros p s Hs.
    rewrite stopAllSounds_unfold. simpl.
    apply well_started_for_each; [apply well_started_stop|done].
  - apply with_actor_well_started; [|done]. intros p s Hs.
    unfold AudioPlayer.setEffect. repeat case_decide; simpl; try done.
    apply well_started_for_each; [apply well_started_setPlaybackRate|done].
  - apply with_actor_well_started; [|done]. intros p s Hs. simpl.
    apply well_started_for_each; [apply well_started_setPlaybackRate|done].
  - by apply with_actor_well_started.
  - unfold AudioEngine.decodeSound. by repeat case_decide.
  - by destruct outcome.
  - apply well_started_update; [apply well_started_onended|done].
Qed.

Lemma run_well_started ops w :
  Forall (well_started ∘ obj) (heap (store w)) →
  Forall (well_started ∘ obj) (heap (store (run ops w))).
Proof.
  revert w. induction ops as [|o ops IH]; intros w Hw; [done|].
  simpl. by apply IH, exec_well_started.
Qed.

End Sources.

Section AtMostOne.

Context `{MathLib}.

Lemma exec_inv o w : Inv w → Inv (exec o w).
Proof.
  intros HI. destruct o; simpl.
  - by apply createPlayer_inv.
  - by apply playSound_inv.
  - apply with_actor_quiet; [done|]. intros p s.
    unfold AudioPlayer.playDrumForBeats.
    destruct (DrumPlayer.play _ _ _) as [[d warns]|e]; simpl;
      (split; [done|apply quieter_refl]).
  - apply with_actor_quiet; [done|]. intros p s. split; [done|].
    rewrite stopAllSounds_unfold. simpl.
    apply quieter_for_each, quiet_stop.
  - apply with_actor_quiet; [done|]. intros p s.
    unfold AudioPlayer.setEffect. repeat case_decide; simpl;
      (split; [done|]); try apply quieter_refl.
    apply quieter_for_each, quiet_setPlaybackRate.
  - apply with_actor_quiet; [done|]. intros p s. simpl. split; [done|].
    apply quieter_for_each, quiet_setPlaybackRate.
  - apply with_actor_quiet; [done|]. intros p s. simpl. split; [done|].
    apply quieter_refl.
  - apply on_store_quiet; [done|]. intros s.
    unfold AudioEngine.decodeSound. repeat case_decide; apply quieter_refl.
  - apply on_store_quiet; [done|]. intros s. apply quieter_refl.
  - apply on_store_quiet; [done|]. intros s. apply quieter_refl.
  - apply on_store_quiet; [done|]. intros s. apply quieter_refl.
  - apply on_store_quiet; [done|]. intros s. apply quieter_refl.
  - apply on_store_quiet; [done|]. intros s. apply quieter_refl.
  - apply on_store_quiet; [done|]. intros s. destruct outcome; apply quieter_refl.
  - apply on_store_quiet; [done|]. intros s. simpl.
    apply quieter_update, quiet_onended.
  - apply on_store_quiet; [done|]. intros s. apply quieter_refl.
Qed.

Lemma run_inv ops w : Inv w → Inv (run ops w).
Proof.
  revert w. induction ops as [|o ops IH]; intros w HI; [done|].
  simpl. by apply IH, exec_inv.
Qed.

Lemma reachable_inv w : reachable w → Inv w.
Proof. intros [ops ->]. apply run_inv, Inv_init. Qed.

(** C1: in every state the system can reach, an actor has at most one
    playing instance of a given sound, and the playing flag tells the
    truth about the audio graph: a player made by [playSound] has no
    source but its current one, and if it is marked as playing that
    source is started, has not been stopped, and carries the handler that
    clears the flag when it ends.  When [playSound] is called for a sound
    that has a player in the actor's registry, that player is stopped
    first (its flag is cleared and its source is stopped), the new player
    is a new object appended to the heap that already holds the stopped
    one, it runs on a started source when the buffer is loaded, and only
    the new one can be playing when the call returns. *)
Theorem at_most_one_playing_instance (ops : list Op) :
  let w := run ops init in
  (∀ a X r1 r2,
      playing_instance w a X r1 → playing_instance w a X r2 → r1 = r2)
  ∧ (∀ r c,
      heap (store w) !! r = Some c →
      SoundPlayer.earlier (obj c) = []
      ∧ (SoundPlayer.isPlaying (obj c) = true →
         ∃ src, SoundPlayer.bufferSource (obj c) = Some src
                ∧ bs_started src = true
                ∧ bs_stopped src = false
                ∧ bs_onended src = true))
  ∧ (∀ a this X b r0,
      actors w !! a = Some this →
      Engine.audioBuffers (audioEngine (store w)) !! X = Some b →
      AudioPlayer.activeSoundPlayers this !! X = Some r0 →
      let stopped := update r0 SoundPlayer.stop (heap (store w)) in
      let made := AudioPlayer.make_player b this in
      let w' := exec (Call_playSound a X) w in
      is_playing stopped r0 = false
      ∧ heap (store w')
        = update (length stopped) (λ _, (SoundPlayer.finished made.1).1)
            (stopped ++ [ {| obj := made.1; sound := X |} ])
      ∧ is_playing (heap (store w')) r0 = false
      ∧ is_playing (heap (store w')) (length (heap (store w))) = loaded b
      ∧ (∀ r, playing_instance w' a X r → r = length (heap (store w)))
      ∧ (∀ c src, heap (store w') !! r0 = Some c →
                  SoundPlayer.bufferSource (obj c) = Some src →
                  bs_stopped src = true)
      ∧ (loaded b = true →
         ∃ c src, heap (store w') !! length (heap (store w)) = Some c
                  ∧ SoundPlayer.bufferSource (obj c) = Some src
                  ∧ bs_started src = true
                  ∧ bs_stopped src = false)).
Proof.
  intros w. assert (HI : Inv w) by apply run_inv, Inv_init.
  assert (HS : Forall (well_started ∘ obj) (heap (store w)))
    by (apply run_well_started; constructor).
  split; [|split].
  2:{ intros r c Hc. exact (Forall_lookup_1 _ _ _ _ HS Hc). }
  - intros a X r1 r2 (c1 & Hc1 & Ho1 & Hs1 & Hp1) (c2 & Hc2 & Ho2 & Hs2 & Hp2).
    destruct (inv_playing w HI r1 c1 Hc1 Hp1) as (a1 & p1 & Hout1 & Ha1 & Hreg1).
    destruct (inv_playing w HI r2 c2 Hc2 Hp2) as (a2 & p2 & Hout2 & Ha2 & Hreg2).
    assert (a1 = a) as -> by congruence.
    assert (a2 = a) as -> by congruence.
    assert (p2 = p1) as -> by congruence.
    rewrite Hs1 in Hreg1. rewrite Hs2 in Hreg2. congruence.
  - intros a this X b r0 Ha Hb Hr0 stopped made w'.
    assert (Hr0lt : r0 < length (heap (store w))) by by eapply (inv_refs w HI).
    assert (Hstopped : is_playing stopped r0 = false).
    { subst stopped. unfold is_playing. rewrite update_lookup.
      by destruct (heap (store w) !! r0). }
    assert (Hlen : length stopped = length (heap (store w)))
      by apply update_length.
    assert (Hheap : heap (store w')
        = update (length stopped) (λ _, (SoundPlayer.finished made.1).1)
            (stopped ++ [ {| obj := made.1; sound := X |} ])).
    { subst w'. simpl. unfold with_actor. rewrite Ha.
      rewrite (playSound_registered _ _ _ _ Hb). simpl.
      unfold stop_previous. rewrite Hr0. by rewrite Hlen. }
    assert (Hold : is_playing (heap (store w')) r0 = false).
    { rewrite Hheap, is_playing_after_finished. unfold is_playing in *.
      by rewrite lookup_app_l by lia. }
    assert (Hnew : is_playing (heap (store w')) (length (heap (store w))) = loaded b).
    { rewrite Hheap, is_playing_after_finished, <- Hlen. unfold is_playing.
      rewrite list_lookup_middle by done. simpl. apply make_player_isPlaying. }
    split; [done|]. split; [done|]. split; [done|]. split; [done|].
    split; [|split].
    2:{ intros c src Hc Hsrc. rewrite Hheap in Hc.
        rewrite update_lookup_ne, lookup_app_l in Hc by lia.
        subst stopped. rewrite update_lookup in Hc.
        destruct (heap (store w) !! r0) as [c0|]; [|done].
        injection Hc as <-. simpl in Hsrc.
        destruct (SoundPlayer.bufferSource (obj c0)); [|done].
        by injection Hsrc as <-. }
    2:{ intros Hl.
        assert (HS' : Forall (well_started ∘ obj) (heap (store w')))
          by by apply exec_well_started.
        unfold is_playing in Hnew.
        destruct (heap (store w') !! length (heap (store w))) as [c|] eqn:Hc;
          [|congruence].
        destruct (Forall_lookup_1 _ _ _ _ HS' Hc) as [_ Hsrc].
        destruct Hsrc as (src & Hsrc & Hst & Hnst & _); [simpl; congruence|].
        by exists c, src. }
    intros r Hr.
    assert (HI' : Inv w') by by apply exec_inv.
    destruct Hr as (c & Hc & Ho & Hs & Hp).
    destruct (inv_playing w' HI' r c Hc Hp) as (a1 & p1 & Hout1 & Ha1 & Hreg1).
    assert (a1 = a) as -> by congruence.
    subst w'. simpl in Ha1. unfold with_actor in Ha1. rewrite Ha in Ha1.
    rewrite (playSound_registered _ _ _ _ Hb) in Ha1. simpl in Ha1.
    rewrite list_lookup_insert_eq in Ha1 by by eapply lookup_lt_Some.
    injection Ha1 as <-. simpl in Hreg1.
    apply prune_lookup_Some in Hreg1 as [Hreg1 _].
    rewrite Hs, lookup_insert_eq in Hreg1. congruence.
Qed.

End AtMostOne.

Lemma at_most_one_playing_instance_witness :
  let w := @run pow_basic playing_history init in
  let w' := @exec pow_basic (Call_playSound 0 "meow.wav") w in
  is_playing (heap (store w)) 0 = true
  ∧ is_playing (heap (store w')) 0 = false
  ∧ is_playing (heap (store w')) 1 = true
  ∧ (∀ r, playing_instance w' 0 "meow.wav" r → r = 1)
  ∧ (∀ c src, heap (store w') !! 0 = Some c →
              SoundPlayer.bufferSource (obj c) = Some src →
              bs_stopped src = true)
  ∧ (∃ c src, heap (store w') !! 1 = Some c
              ∧ SoundPlayer.bufferSource (obj c) = Some src
              ∧ bs_started src = true
              ∧ bs_stopped src = false).
Proof.
  intros w w'.
  destruct (@at_most_one_playing_instance pow_basic playing_history)
    as (_ & _ & Hreplay).
  fold w in Hreplay.
  destruct (actors w !! 0) as [this|] eqn:Ha; [|by vm_compute in Ha].
  assert (Hb : Engine.audioBuffers (audioEngine (store w)) !! "meow.wav"
               = Some {| loaded := true; samples := [0.5%float] |})
    by (vm_compute; reflexivity).
  assert (Hr0 : AudioPlayer.activeSoundPlayers this !! "meow.wav" = Some 0).
  { vm_compute in Ha. injection Ha as <-. vm_compute. reflexivity. }
  destruct (Hreplay 0 this "meow.wav" _ 0 Ha Hb Hr0)
    as (_ & _ & Hold & Hnew & Honly & Hsrc0 & Hsrc1).
  fold w' in Hold, Hnew, Honly, Hsrc0, Hsrc1.
  split; [by vm_compute|]. split; [exact Hold|]. split; [exact Hnew|].
  split; [exact Honly|]. split; [exact Hsrc0|exact (Hsrc1 eq_refl)].
Defined.

(** Playing the same sound twice in a row: the first player is stopped and
    only the second one is playing and registered. *)
Example playSound_twice :
  let w := @run pow_basic (playing_history ++ [Call_playSound 0 "meow.wav"]) init in
  (SoundPlayer.isPlaying ∘ obj <$> heap (store w)) = [false; true]
  ∧ (AudioPlayer.activeSoundPlayers <$> actors w !! 0) = Some {[ "meow.wav" := 1 ]}.
Proof. split; vm_compute; reflexivity. Qed.

(** * Further properties of the code *)

(** ** The life of a SoundPlayer *)

Lemma start_loaded p b :
  SoundPlayer.buffer p = Some b → loaded b = true →
  SoundPlayer.start p
  = ({| SoundPlayer.outputNode := SoundPlayer.outputNode p;
        SoundPlayer.buffer := SoundPlayer.buffer p;
        SoundPlayer.bufferSource :=
          Some {| bs_buffer := samples b;
                  bs_playbackRate := SoundPlayer.playbackRate p;
                  bs_destination := SoundPlayer.outputNode p;
                  bs_started := true; bs_stopped := false; bs_onended := false |};
        SoundPlayer.playbackRate := SoundPlayer.playbackRate p;
        SoundPlayer.isPlaying := true;
        SoundPlayer.earlier := SoundPlayer.replaced_sources p |}, []).
Proof. intros Hb Hl. unfold SoundPlayer.start. by rewrite Hb, Hl. Qed.

Lemma start_not_loaded p :
  (∀ b, SoundPlayer.buffer p = Some b → loaded b = false) →
  SoundPlayer.start p = (p, [SoundPlayer.not_loaded_warning]).
Proof.
  intros Hb. unfold SoundPlayer.start.
  destruct (SoundPlayer.buffer p) as [b|]; [|done]. by rewrite (Hb b).
Qed.

(** X1: a rate set before [start] is the rate the source is created with,
    and a rate set while the sound plays retunes that same running source
    (it stays started, not stopped, with the same buffer and destination);
    in both cases the player is playing and nothing is logged. *)
Theorem playbackRate_before_and_after_start
    (p : SoundPlayer.t) (b : ToneBuffer) (r r' : float) :
  SoundPlayer.buffer p = Some b →
  loaded b = true →
  let '(p1, warns) := SoundPlayer.start (SoundPlayer.setPlaybackRate r p) in
  let p2 := SoundPlayer.setPlaybackRate r' p1 in
  warns = []
  ∧ SoundPlayer.isPlaying p1 = true
  ∧ SoundPlayer.bufferSource p1
    = Some {| bs_buffer := samples b; bs_playbackRate := r;
              bs_destination := SoundPlayer.outputNode p;
              bs_started := true; bs_stopped := false; bs_onended := false |}
  ∧ SoundPlayer.isPlaying p2 = true
  ∧ SoundPlayer.playbackRate p2 = r'
  ∧ SoundPlayer.bufferSource p2
    = Some {| bs_buffer := samples b; bs_playbackRate := r';
              bs_destination := SoundPlayer.outputNode p;
              bs_started := true; bs_stopped := false; bs_onended := false |}.
Proof.
  intros Hb Hl.
  rewrite (start_loaded (SoundPlayer.setPlaybackRate r p) b) by done.
  simpl. done.
Qed.

Lemma playbackRate_before_and_after_start_witness :
  let '(p1, warns) := SoundPlayer.start (SoundPlayer.setPlaybackRate 0.5%float fresh_player) in
  let p2 := SoundPlayer.setPlaybackRate 2%float p1 in
  warns = []
  ∧ SoundPlayer.isPlaying p1 = true
  ∧ SoundPlayer.bufferSource p1
    = Some {| bs_buffer := [0.5%float]; bs_playbackRate := 0.5%float;
              bs_destination := Some (EffectsNode 0);
              bs_started := true; bs_stopped := false; bs_onended := false |}
  ∧ SoundPlayer.isPlaying p2 = true
  ∧ SoundPlayer.playbackRate p2 = 2%float
  ∧ SoundPlayer.bufferSource p2
    = Some {| bs_buffer := [0.5%float]; bs_playbackRate := 2%float;
              bs_destination := Some (EffectsNode 0);
              bs_started := true; bs_stopped := false; bs_onended := false |}.
Proof.
  apply (playbackRate_before_and_after_start fresh_player meow 0.5%float 2%float);
    reflexivity.
Defined.

(** X2: once a player has been started and [finished] has been called, the
    promise is pending and the player still plays; the end of the source
    and [stop] both leave it not playing, in either order they give the
    same state, and [stop] is idempotent. *)
Theorem stop_and_onended_agree (p : SoundPlayer.t) (b : ToneBuffer) :
  SoundPlayer.buffer p = Some b →
  loaded b = true →
  let started := (SoundPlayer.start p).1 in
  let '(watched, promise) := SoundPlayer.finished started in
  promise = Pending
  ∧ SoundPlayer.isPlaying watched = true
  ∧ SoundPlayer.isPlaying (SoundPlayer.onended watched) = false
  ∧ SoundPlayer.isPlaying (SoundPlayer.stop watched) = false
  ∧ (bs_stopped <$> SoundPlayer.bufferSource (SoundPlayer.stop watched)) = Some true
  ∧ SoundPlayer.onended (SoundPlayer.stop watched)
    = SoundPlayer.stop (SoundPlayer.onended watched)
  ∧ SoundPlayer.stop (SoundPlayer.stop watched) = SoundPlayer.stop watched.
Proof.
  intros Hb Hl started. subst started. rewrite (start_loaded p b) by done.
  simpl. repeat split.
Qed.

Lemma stop_and_onended_agree_witness :
  let started := (SoundPlayer.start fresh_player).1 in
  let '(watched, promise) := SoundPlayer.finished started in
  promise = Pending
  ∧ SoundPlayer.isPlaying watched = true
  ∧ SoundPlayer.isPlaying (SoundPlayer.onended watched) = false
  ∧ SoundPlayer.isPlaying (SoundPlayer.stop watched) = false
  ∧ (bs_stopped <$> SoundPlayer.bufferSource (SoundPlayer.stop watched)) = Some true
  ∧ SoundPlayer.onended (SoundPlayer.stop watched)
    = SoundPlayer.stop (SoundPlayer.onended watched)
  ∧ SoundPlayer.stop (SoundPlayer.stop watched) = SoundPlayer.stop watched.
Proof. apply (stop_and_onended_agree fresh_player meow); reflexivity. Defined.

(** X3: starting a player again replaces its source by a new one that has
    no [onended] handler, while the handler installed by an earlier
    [finished] stays on the old source, bound to the player: the end of
    the new source changes nothing, and the end of the old (stopped)
    source marks the restarted player as not playing although its new
    source is still running. *)
Theorem restart_keeps_handler_on_old_source (p : SoundPlayer.t) (b : ToneBuffer) :
  SoundPlayer.buffer p = Some b →
  loaded b = true →
  let watched := (SoundPlayer.finished (SoundPlayer.start p).1).1 in
  let again := (SoundPlayer.start (SoundPlayer.stop watched)).1 in
  (bs_onended <$> SoundPlayer.bufferSource watched) = Some true
  ∧ (bs_onended <$> SoundPlayer.bufferSource again) = Some false
  ∧ (bs_started <$> SoundPlayer.bufferSource again) = Some true
  ∧ (bs_stopped <$> SoundPlayer.bufferSource again) = Some false
  ∧ SoundPlayer.isPlaying again = true
  ∧ (∃ old, SoundPlayer.earlier again !! 0 = Some old
            ∧ bs_onended old = true ∧ bs_stopped old = true)
  ∧ SoundPlayer.onended again = again
  ∧ SoundPlayer.isPlaying (SoundPlayer.onended_earlier 0 again) = false
  ∧ SoundPlayer.bufferSource (SoundPlayer.onended_earlier 0 again)
    = SoundPlayer.bufferSource again.
Proof.
  intros Hb Hl watched again. subst watched again.
  rewrite (start_loaded p b) by done. simpl.
  rewrite (start_loaded _ b) by done. simpl.
  repeat split. eexists. repeat split.
Qed.

Lemma restart_keeps_handler_on_old_source_witness :
  let watched := (SoundPlayer.finished (SoundPlayer.start fresh_player).1).1 in
  let again := (SoundPlayer.start (SoundPlayer.stop watched)).1 in
  (bs_onended <$> SoundPlayer.bufferSource again) = Some false
  ∧ (bs_stopped <$> SoundPlayer.bufferSource again) = Some false
  ∧ SoundPlayer.isPlaying again = true
  ∧ SoundPlayer.onended again = again
  ∧ SoundPlayer.isPlaying (SoundPlayer.onended_earlier 0 again) = false.
Proof.
  destruct (restart_keeps_handler_on_old_source fresh_player meow eq_refl eq_refl)
    as (_ & Hh & _ & Hst & Hp & _ & Hend & Hold & _).
  by repeat split.
Defined.

(** ** What each operation does to the engine *)

Section EngineFrame.

Context `{MathLib}.

Lemma with_actor_engine a f w :
  (∀ p s, audioEngine (f p s).2 = audioEngine s) →
  audioEngine (store (with_actor a f w)) = audioEngine (store w).
Proof.
  intros Hf. unfold with_actor. destruct (actors w !! a) as [p|]; [|done].
  specialize (Hf p (store w)). by destruct (f p (store w)).
Qed.

Lemma playSound_engine md5 p s :
  audioEngine
    (let '(_, p', s') := AudioPlayer.playSound md5 p s in (p', s')).2
  = audioEngine s.
Proof.
  pose proof (playSound_frame md5 p s) as Hfr.
  destruct (AudioPlayer.playSound md5 p s) as [[ret p'] s']. by destruct Hfr.
Qed.

Lemma setEffect_engine effect value p s :
  audioEngine (AudioPlayer.setEffect effect value p s).2 = audioEngine s.
Proof. unfold AudioPlayer.setEffect. by repeat case_decide. Qed.

(** The drum bank changes only when a drum is played, when an existing
    actor stops all sounds, and when a drum sample arrives. *)
Lemma exec_drums o w :
  drums (exec o w)
  = match o with
    | Call_playDrumForBeats a drum _ =>
        match actors w !! a with
        | Some p =>
            match DrumPlayer.play drum (gain_node (AudioPlayer.effectsNode p))
                    (Engine.drumPlayer (audioEngine (store w))) with
            | Normal (d, _) => DrumPlayer.drumSounds d
            | Throw _ => drums w
            end
        | None => drums w
        end
    | Call_stopAllSounds a =>
        match actors w !! a with
        | Some _ => SoundPlayer.stop <$> drums w
        | None => drums w
        end
    | Event_drumLoaded i pcm =>
        alter (SoundPlayer.setBuffer {| loaded := true; samples := pcm |}) i (drums w)
    | _ => drums w
    end.
Proof.
  unfold drums. destruct o; simpl; try done.
  - by rewrite with_actor_engine by (intros; apply playSound_engine).
  - unfold with_actor. destruct (actors w !! a) as [p|]; [|done].
    unfold AudioPlayer.playDrumForBeats.
    by destruct (DrumPlayer.play _ _ _) as [[d warns]|e].
  - unfold with_actor. by destruct (actors w !! a) as [p|].
  - by rewrite with_actor_engine by (intros; apply setEffect_engine).
  - by rewrite with_actor_engine.
  - by rewrite with_actor_engine.
  - unfold AudioEngine.decodeSound. by repeat case_decide.
  - by destruct outcome.
Qed.

(** The cache changes only when a decode succeeds. *)
Lemma exec_buffers o w :
  buffers (exec o w)
  = match o with
    | Event_loaderSettled sound (Fulfilled b) => <[md5 sound := b]> (buffers w)
    | _ => buffers w
    end.
Proof.
  unfold buffers. destruct o; simpl; try done.
  - by rewrite with_actor_engine by (intros; apply playSound_engine).
  - unfold with_actor. destruct (actors w !! a) as [p|]; [|done].
    unfold AudioPlayer.playDrumForBeats.
    by destruct (DrumPlayer.play _ _ _) as [[d warns]|e].
  - unfold with_actor. by destruct (actors w !! a) as [p|].
  - by rewrite with_actor_engine by (intros; apply setEffect_engine).
  - by rewrite with_actor_engine.
  - by rewrite with_actor_engine.
  - unfold AudioEngine.decodeSound. by repeat case_decide.
  - by destruct outcome.
Qed.

(** The tempo changes only by [setTempo] and [changeTempo]. *)
Lemma exec_tempo o w :
  Engine.currentTempo (audioEngine (store (exec o w)))
  = match o with
    | Call_setTempo value => value
    | Call_changeTempo value =>
        (Engine.currentTempo (audioEngine (store w)) + value)%float
    | _ => Engine.currentTempo (audioEngine (store w))
    end.
Proof.
  destruct o; simpl; try done.
  - by rewrite with_actor_engine by (intros; apply playSound_engine).
  - unfold with_actor. destruct (actors w !! a) as [p|]; [|done].
    unfold AudioPlayer.playDrumForBeats.
    by destruct (DrumPlayer.play _ _ _) as [[d warns]|e].
  - unfold with_actor. by destruct (actors w !! a) as [p|].
  - by rewrite with_actor_engine by (intros; apply setEffect_engine).
  - by rewrite with_actor_engine.
  - by rewrite with_actor_engine.
  - unfold AudioEngine.decodeSound. by repeat case_decide.
  - by destruct outcome.
Qed.

End EngineFrame.

(** ** The drum bank *)

Lemma DrumPlayer_play_in_range drum node d sp :
  DrumPlayer.drumSounds d !! drum = Some sp →
  DrumPlayer.play drum node d
  = Normal ({| DrumPlayer.outputNode := DrumPlayer.outputNode d;
               DrumPlayer.drumSounds :=
                 <[drum := (SoundPlayer.start (SoundPlayer.set_outputNode (Some node) sp)).1]>
                   (DrumPlayer.drumSounds d) |},
            (SoundPlayer.start (SoundPlayer.set_outputNode (Some node) sp)).2).
Proof.
  intros Hsp. unfold DrumPlayer.play. rewrite Hsp.
  by destruct (SoundPlayer.start _).
Qed.

Lemma DrumPlayer_play_out_of_range drum node d :
  length (DrumPlayer.drumSounds d) ≤ drum →
  DrumPlayer.play drum node d
  = Throw (TypeError "Cannot set property 'outputNode' of undefined").
Proof.
  intros Hlen. unfold DrumPlayer.play.
  by rewrite (proj2 (lookup_ge_None _ _) Hlen).
Qed.

Lemma start_keeps_playing x :
  SoundPlayer.isPlaying x = true → SoundPlayer.isPlaying (SoundPlayer.start x).1 = true.
Proof.
  intros Hx. unfold SoundPlayer.start.
  destruct (SoundPlayer.buffer x) as [b|]; [|done]. by destruct (loaded b).
Qed.

Lemma start_unobserved x : unobserved x → unobserved (SoundPlayer.start x).1.
Proof.
  intros Hx. unfold SoundPlayer.start.
  destruct (SoundPlayer.buffer x) as [b|]; [|done].
  destruct (loaded b); [|done]. by intros src [= <-].
Qed.

Lemma stop_unobserved x : unobserved x → unobserved (SoundPlayer.stop x).
Proof.
  intros Hx src. simpl.
  destruct (SoundPlayer.bufferSource x) as [src0|] eqn:Hsrc; [|done].
  intros [= <-]. simpl. by apply Hx.
Qed.

Lemma unobserved_onended x : unobserved x → SoundPlayer.onended x = x.
Proof.
  intros Hx. unfold SoundPlayer.onended.
  destruct (SoundPlayer.bufferSource x) as [src|] eqn:Hsrc; [|done].
  by rewrite (Hx src).
Qed.

Section Drums.

Context `{MathLib}.

Lemma exec_drums_length o w : length (drums (exec o w)) = length (drums w).
Proof.
  rewrite exec_drums. destruct o; try done.
  - destruct (actors w !! a) as [p|]; [|done].
    unfold DrumPlayer.play. fold (drums w).
    destruct (drums w !! drum) as [sp|]; [|done].
    destruct (SoundPlayer.start _) as [sp' warns]. simpl. apply length_insert.
  - destruct (actors w !! a); [apply length_fmap|done].
  - apply length_alter.
Qed.

Lemma run_drums_length ops w : length (drums (run ops w)) = length (drums w).
Proof.
  revert w. induction ops as [|o ops IH]; intros w; [done|].
  simpl. by rewrite IH, exec_drums_length.
Qed.

Lemma exec_drums_unobserved o w :
  Forall unobserved (drums w) → Forall unobserved (drums (exec o w)).
Proof.
  intros Hw. rewrite exec_drums. destruct o; try done.
  - destruct (actors w !! a) as [p|]; [|done].
    unfold DrumPlayer.play. fold (drums w).
    destruct (drums w !! drum) as [sp|] eqn:Hsp; [|done].
    pose proof (start_unobserved (SoundPlayer.set_outputNode
                  (Some (gain_node (AudioPlayer.effectsNode p))) sp)) as Hst.
    destruct (SoundPlayer.start _) as [sp' warns]. simpl.
    apply Forall_insert; [done|]. apply Hst.
    by apply (Forall_lookup_1 _ _ _ _ Hw Hsp).
  - destruct (actors w !! a); [|done].
    apply Forall_fmap. eapply Forall_impl; [exact Hw|].
    intros x Hx. by apply stop_unobserved.
  - apply Forall_alter; [done|]. intros x _ Hx. exact Hx.
Qed.

Lemma run_drums_unobserved ops w :
  Forall unobserved (drums w) → Forall unobserved (drums (run ops w)).
Proof.
  revert w. induction ops as [|o ops IH]; intros w Hw; [done|].
  simpl. by apply IH, exec_drums_unobserved.
Qed.

Lemma start_never_observed x : never_observed x → never_observed (SoundPlayer.start x).1.
Proof.
  intros [Hx He]. split; [by apply start_unobserved|].
  unfold SoundPlayer.start.
  destruct (SoundPlayer.buffer x) as [b|]; [|done].
  destruct (loaded b); [|done]. simpl. unfold SoundPlayer.replaced_sources.
  destruct (SoundPlayer.bufferSource x) as [old|] eqn:Hold; [|done].
  constructor; [by apply Hx|done].
Qed.

Lemma exec_drums_never_observed o w :
  Forall never_observed (drums w) → Forall never_observed (drums (exec o w)).
Proof.
  intros Hw. rewrite exec_drums. destruct o; try done.
  - destruct (actors w !! a) as [p|]; [|done].
    unfold DrumPlayer.play. fold (drums w).
    destruct (drums w !! drum) as [sp|] eqn:Hsp; [|done].
    pose proof (start_never_observed (SoundPlayer.set_outputNode
                  (Some (gain_node (AudioPlayer.effectsNode p))) sp)) as Hst.
    destruct (SoundPlayer.start _) as [sp' warns]. simpl.
    apply Forall_insert; [done|]. apply Hst.
    by apply (Forall_lookup_1 _ _ _ _ Hw Hsp).
  - destruct (actors w !! a); [|done].
    apply Forall_fmap. eapply Forall_impl; [exact Hw|].
    intros x [Hx He]. split; [by apply stop_unobserved|done].
  - apply Forall_alter; [done|]. intros x _ Hx. exact Hx.
Qed.

Lemma run_drums_never_observed ops w :
  Forall never_observed (drums w) → Forall never_observed (drums (run ops w)).
Proof.
  revert w. induction ops as [|o ops IH]; intros w Hw; [done|].
  simpl. by apply IH, exec_drums_never_observed.
Qed.

Lemma init_drums_never_observed : Forall never_observed (drums init).
Proof.
  unfold drums, init; simpl. repeat constructor; by intros src.
Qed.

Lemma init_drums_unobserved : Forall unobserved (drums init).
Proof. unfold drums, init; simpl. repeat constructor; by intros src. Qed.

(** X4: the engine always has 18 drum players; [playDrumForBeats] throws a
    [TypeError] exactly for the drum numbers from 18 on, and then leaves
    the whole system as it was (no timeout is requested); for a drum
    number below 18 it returns a pending promise. *)
Theorem playDrumForBeats_bounds
    (ops : list Op) (a : nat) (this : AudioPlayer.t) (drum : nat) (beats : float) :
  let w := run ops init in
  actors w !! a = Some this →
  length (drums w) = 18
  ∧ (drum < 18 →
       ∃ s', AudioPlayer.playDrumForBeats drum beats this (store w)
             = Normal (s', Pending))
  ∧ (18 ≤ drum →
       AudioPlayer.playDrumForBeats drum beats this (store w)
       = Throw (TypeError "Cannot set property 'outputNode' of undefined")
       ∧ exec (Call_playDrumForBeats a drum beats) w = w).
Proof.
  intros w Ha.
  assert (Hlen : length (drums w) = 18) by (subst w; by rewrite run_drums_length).
  split; [done|]. split.
  - intros Hlt. unfold AudioPlayer.playDrumForBeats.
    destruct (lookup_lt_is_Some_2 (drums w) drum) as [sp Hsp]; [lia|].
    rewrite (DrumPlayer_play_in_range _ _ _ sp) by exact Hsp. simpl. eauto.
  - intros Hge.
    assert (Hthrow : AudioPlayer.playDrumForBeats drum beats this (store w)
              = Throw (TypeError "Cannot set property 'outputNode' of undefined")).
    { unfold AudioPlayer.playDrumForBeats.
      rewrite DrumPlayer_play_out_of_range; [done|]. fold (drums w). lia. }
    split; [done|]. simpl. unfold with_actor. rewrite Ha, Hthrow.
    rewrite list_insert_id by done. by destruct w.
Qed.

End Drums.

Lemma playDrumForBeats_bounds_witness :
  let w := @run pow_basic drum_history init in
  length (drums w) = 18
  ∧ (∃ s', AudioPlayer.playDrumForBeats 17 1%float first_actor (store w)
           = Normal (s', Pending))
  ∧ AudioPlayer.playDrumForBeats 18 1%float first_actor (store w)
    = Throw (TypeError "Cannot set property 'outputNode' of undefined").
Proof.
  intros w.
  destruct (@playDrumForBeats_bounds pow_basic drum_history 0 first_actor 17 1%float)
    as (Hlen & Hin & _); [by vm_compute|].
  destruct (@playDrumForBeats_bounds pow_basic drum_history 0 first_actor 18 1%float)
    as (_ & _ & Hout); [by vm_compute|].
  split; [exact Hlen|]. split; [apply Hin; lia|apply Hout; lia].
Defined.

(** X5: playing a drum whose sample is loaded restarts the shared drum
    player on a new source, whatever its state was (playing or stopped):
    the source is started, not stopped, connected to the effects node of
    the calling actor and runs at the drum player's rate; the other drums,
    the heap and the log are untouched, and the timeout of the wait is
    requested. *)
Theorem playDrumForBeats_loaded
    (this : AudioPlayer.t) (s : Store) (drum : nat) (beats : float)
    (sp : SoundPlayer.t) (b : ToneBuffer) :
  DrumPlayer.drumSounds (Engine.drumPlayer (audioEngine s)) !! drum = Some sp →
  SoundPlayer.buffer sp = Some b →
  loaded b = true →
  let node := gain_node (AudioPlayer.effectsNode this) in
  ∃ s',
    AudioPlayer.playDrumForBeats drum beats this s = Normal (s', Pending)
    ∧ DrumPlayer.drumSounds (Engine.drumPlayer (audioEngine s')) !! drum
      = Some {| SoundPlayer.outputNode := Some node;
                SoundPlayer.buffer := Some b;
                SoundPlayer.bufferSource :=
                  Some {| bs_buffer := samples b;
                          bs_playbackRate := SoundPlayer.playbackRate sp;
                          bs_destination := Some node;
                          bs_started := true; bs_stopped := false;
                          bs_onended := false |};
                SoundPlayer.playbackRate := SoundPlayer.playbackRate sp;
                SoundPlayer.isPlaying := true;
                SoundPlayer.earlier := SoundPlayer.replaced_sources sp |}
    ∧ (∀ j, j ≠ drum →
         DrumPlayer.drumSounds (Engine.drumPlayer (audioEngine s')) !! j
         = DrumPlayer.drumSounds (Engine.drumPlayer (audioEngine s)) !! j)
    ∧ heap s' = heap s
    ∧ log s' = log s
    ∧ timers s'
      = timers s ++ [(AudioEngine.beatsToSec beats (audioEngine s) * 1000)%float].
Proof.
  intros Hsp Hb Hl node. unfold AudioPlayer.playDrumForBeats.
  rewrite (DrumPlayer_play_in_range _ _ _ sp) by exact Hsp.
  rewrite (start_loaded _ b) by done. simpl.
  eexists. split; [reflexivity|]. simpl. split.
  { rewrite list_lookup_insert_eq by (by eapply lookup_lt_Some).
    by rewrite Hb. }
  split.
  { intros j Hj. by rewrite list_lookup_insert_ne. }
  split; [done|]. split; [by rewrite app_nil_r|done].
Qed.

(** X6: playing a drum whose sample has not arrived starts nothing: the
    warning is logged and the drum player keeps its playing flag and its
    source, but it is still re-routed to the caller's effects node, and
    the call still returns a pending promise and requests the timeout of
    the wait. *)
Theorem playDrumForBeats_not_loaded
    (this : AudioPlayer.t) (s : Store) (drum : nat) (beats : float)
    (sp : SoundPlayer.t) :
  DrumPlayer.drumSounds (Engine.drumPlayer (audioEngine s)) !! drum = Some sp →
  (∀ b, SoundPlayer.buffer sp = Some b → loaded b = false) →
  let node := gain_node (AudioPlayer.effectsNode this) in
  ∃ s',
    AudioPlayer.playDrumForBeats drum beats this s = Normal (s', Pending)
    ∧ DrumPlayer.drumSounds (Engine.drumPlayer (audioEngine s')) !! drum
      = Some {| SoundPlayer.outputNode := Some node;
                SoundPlayer.buffer := SoundPlayer.buffer sp;
                SoundPlayer.bufferSource := SoundPlayer.bufferSource sp;
                SoundPlayer.playbackRate := SoundPlayer.playbackRate sp;
                SoundPlayer.isPlaying := SoundPlayer.isPlaying sp;
                SoundPlayer.earlier := SoundPlayer.earlier sp |}
    ∧ heap s' = heap s
    ∧ log s' = log s ++ [SoundPlayer.not_loaded_warning]
    ∧ timers s'
      = timers s ++ [(AudioEngine.beatsToSec beats (audioEngine s) * 1000)%float].
Proof.
  intros Hsp Hb node. unfold AudioPlayer.playDrumForBeats.
  rewrite (DrumPlayer_play_in_range _ _ _ sp) by exact Hsp.
  rewrite start_not_loaded by exact Hb. simpl.
  eexists. split; [reflexivity|]. simpl. split; [|done].
  by rewrite list_lookup_insert_eq by (by eapply lookup_lt_Some).
Qed.

Lemma playDrumForBeats_loaded_witness :
  ∃ s',
    AudioPlayer.playDrumForBeats 3 2%float first_actor drum_store = Normal (s', Pending)
    ∧ (SoundPlayer.isPlaying
         <$> DrumPlayer.drumSounds (Engine.drumPlayer (audioEngine s')) !! 3) = Some true
    ∧ (SoundPlayer.outputNode
         <$> DrumPlayer.drumSounds (Engine.drumPlayer (audioEngine s')) !! 3)
      = Some (Some (EffectsNode 0))
    ∧ timers s' = timers drum_store ++ [2000%float].
Proof.
  destruct (DrumPlayer.drumSounds (Engine.drumPlayer (audioEngine drum_store)) !! 3)
    as [sp|] eqn:Hsp; [|by vm_compute in Hsp].
  assert (Hb : SoundPlayer.buffer sp = Some {| loaded := true; samples := [0.25%float] |}).
  { vm_compute in Hsp. by injection Hsp as <-. }
  destruct (playDrumForBeats_loaded first_actor drum_store 3 2%float sp _ Hsp Hb eq_refl)
    as (s' & Hcall & Hdrum & _ & _ & _ & Htimers).
  exists s'. split; [exact Hcall|]. rewrite Hdrum, Htimers. by vm_compute.
Defined.

Lemma playDrumForBeats_not_loaded_witness :
  ∃ s',
    AudioPlayer.playDrumForBeats 5 2%float first_actor drum_store = Normal (s', Pending)
    ∧ (SoundPlayer.isPlaying
         <$> DrumPlayer.drumSounds (Engine.drumPlayer (audioEngine s')) !! 5) = Some false
    ∧ log s' = log drum_store ++ [SoundPlayer.not_loaded_warning]
    ∧ timers s' = timers drum_store ++ [2000%float].
Proof.
  destruct (DrumPlayer.drumSounds (Engine.drumPlayer (audioEngine drum_store)) !! 5)
    as [sp|] eqn:Hsp; [|by vm_compute in Hsp].
  assert (Hb : ∀ b, SoundPlayer.buffer sp = Some b → loaded b = false).
  { vm_compute in Hsp. injection Hsp as <-. by intros b [= <-]. }
  destruct (playDrumForBeats_not_loaded first_actor drum_store 5 2%float sp Hsp Hb)
    as (s' & Hcall & Hdrum & _ & Hlog & Htimers).
  exists s'. split; [exact Hcall|]. rewrite Hdrum, Hlog, Htimers.
  vm_compute in Hsp. injection Hsp as <-. by vm_compute.
Defined.

Section DrumEnd.

Context `{MathLib}.

(** X7: no drum player ever gets an [onended] handler ([finished] is never
    called on one), so the end of a drum's source changes nothing; a drum
    player that is marked as playing stays so across every operation
    except [stopAllSounds].  The same holds of the sources a drum player
    has replaced: none carries a handler, and their end changes
    nothing. *)
Theorem drum_players_ignore_source_end (ops : list Op) :
  let w := run ops init in
  (∀ i sp, drums w !! i = Some sp →
           unobserved sp ∧ SoundPlayer.onended sp = sp)
  ∧ (∀ o i sp,
       drums w !! i = Some sp →
       SoundPlayer.isPlaying sp = true →
       (∀ a, o ≠ Call_stopAllSounds a) →
       ∃ sp', drums (exec o w) !! i = Some sp' ∧ SoundPlayer.isPlaying sp' = true)
  ∧ (∀ i sp k,
       drums w !! i = Some sp →
       SoundPlayer.onended_earlier k sp = sp
       ∧ ∀ old, SoundPlayer.earlier sp !! k = Some old → bs_onended old = false).
Proof.
  intros w. split; [|split].
  3:{ intros i sp k Hsp.
      assert (Hnever : never_observed sp).
      { eapply Forall_lookup_1; [|exact Hsp].
        subst w. apply run_drums_never_observed, init_drums_never_observed. }
      destruct Hnever as [_ He].
      assert (Hold : ∀ old, SoundPlayer.earlier sp !! k = Some old →
                            bs_onended old = false).
      { intros old Hk. exact (Forall_lookup_1 _ _ _ _ He Hk). }
      split; [|exact Hold]. unfold SoundPlayer.onended_earlier.
      destruct (SoundPlayer.earlier sp !! k) as [old|]; [|done].
      by rewrite (Hold old). }
  - intros i sp Hsp.
    assert (Hun : unobserved sp).
    { eapply Forall_lookup_1; [|exact Hsp].
      subst w. apply run_drums_unobserved, init_drums_unobserved. }
    split; [done|]. by apply unobserved_onended.
  - intros o i sp Hsp Hplay Hno. rewrite exec_drums.
    destruct o; eauto.
    + destruct (actors w !! a) as [p|]; [|eauto].
      unfold DrumPlayer.play. fold (drums w).
      destruct (drums w !! drum) as [sp0|] eqn:Hsp0; [|eauto].
      pose proof (start_keeps_playing (SoundPlayer.set_outputNode
                    (Some (gain_node (AudioPlayer.effectsNode p))) sp0)) as Hst.
      destruct (SoundPlayer.start _) as [sp1 warns]. simpl in *.
      destruct (decide (drum = i)) as [->|Hne].
      * exists sp1. rewrite list_lookup_insert_eq by (by eapply lookup_lt_Some).
        split; [done|]. apply Hst. congruence.
      * exists sp. by rewrite list_lookup_insert_ne.
    + by destruct (Hno a).
    + rewrite list_lookup_alter. case_decide as Hi; [|eauto].
      subst. rewrite Hsp. simpl. eauto.
Qed.

End DrumEnd.

Lemma drum_players_ignore_source_end_witness :
  let w := @run pow_basic drum_history init in
  ∃ sp', drums (@exec pow_basic (Call_setTempo 120%float) w) !! 3 = Some sp'
         ∧ SoundPlayer.isPlaying sp' = true.
Proof.
  intros w.
  destruct (@drum_players_ignore_source_end pow_basic drum_history)
    as (_ & Hkeep & _).
  destruct (drums w !! 3) as [sp|] eqn:Hsp; [|by vm_compute in Hsp].
  apply (Hkeep (Call_setTempo 120%float) 3 sp Hsp).
  - vm_compute in Hsp. by injection Hsp as <-.
  - intros a. discriminate.
Defined.

(** ** A drum hit again while it sounds *)

(** C8 (what the code does): [DrumPlayer.play] starts the shared drum
    player again without stopping the source it holds, and [stop] (hence
    [DrumPlayer.stopAll] and [stopAllSounds]) reaches only the source the
    player holds now.  So when a drum that is sounding is hit again and
    [stopAllSounds] is called, the drum player is marked as not playing
    and its latest source is stopped, but the source of the first hit is
    still in the audio graph, started, and has never been stopped. *)
Theorem stopAllSounds_misses_replaced_drum_source
    (this caller : AudioPlayer.t) (s : Store) (drum : nat) (beats : float)
    (sp : SoundPlayer.t) (b : ToneBuffer) (src : BufferSource) :
  DrumPlayer.drumSounds (Engine.drumPlayer (audioEngine s)) !! drum = Some sp →
  SoundPlayer.buffer sp = Some b →
  loaded b = true →
  SoundPlayer.bufferSource sp = Some src →
  bs_started src = true →
  bs_stopped src = false →
  ∃ s1,
    AudioPlayer.playDrumForBeats drum beats caller s = Normal (s1, Pending)
    ∧ ∃ sp',
        DrumPlayer.drumSounds
          (Engine.drumPlayer (audioEngine (AudioPlayer.stopAllSounds this s1))) !! drum
        = Some sp'
        ∧ SoundPlayer.isPlaying sp' = false
        ∧ (bs_stopped <$> SoundPlayer.bufferSource sp') = Some true
        ∧ SoundPlayer.earlier sp' = src :: SoundPlayer.earlier sp
        ∧ ∃ old, old ∈ SoundPlayer.earlier sp'
                 ∧ bs_started old = true
                 ∧ bs_stopped old = false.
Proof.
  intros Hsp Hb Hl Hsrc Hst Hnst. unfold AudioPlayer.playDrumForBeats.
  rewrite (DrumPlayer_play_in_range _ _ _ sp) by exact Hsp.
  rewrite (start_loaded _ b) by done. simpl.
  eexists. split; [reflexivity|]. simpl.
  rewrite list_lookup_fmap, list_lookup_insert_eq by (by eapply lookup_lt_Some).
  simpl. eexists. split; [reflexivity|]. simpl.
  unfold SoundPlayer.replaced_sources. simpl. rewrite Hsrc.
  repeat split. exists src. split; [apply elem_of_cons; by left|done].
Qed.

Lemma stopAllSounds_misses_replaced_drum_source_witness :
  ∃ s1,
    AudioPlayer.playDrumForBeats 3 1%float first_actor drum_store = Normal (s1, Pending)
    ∧ ∃ sp',
        DrumPlayer.drumSounds
          (Engine.drumPlayer (audioEngine (AudioPlayer.stopAllSounds first_actor s1))) !! 3
        = Some sp'
        ∧ SoundPlayer.isPlaying sp' = false
        ∧ ∃ old, old ∈ SoundPlayer.earlier sp'
                 ∧ bs_destination old = Some (EffectsNode 1)
                 ∧ bs_started old = true
                 ∧ bs_stopped old = false.
Proof.
  destruct (DrumPlayer.drumSounds (Engine.drumPlayer (audioEngine drum_store)) !! 3)
    as [sp|] eqn:Hsp; [|by vm_compute in Hsp].
  destruct (SoundPlayer.bufferSource sp) as [src|] eqn:Hsrc.
  2:{ vm_compute in Hsp. injection Hsp as <-. by vm_compute in Hsrc. }
  assert (Hfacts : SoundPlayer.buffer sp = Some {| loaded := true; samples := [0.25%float] |}
                   ∧ bs_started src = true ∧ bs_stopped src = false
                   ∧ bs_destination src = Some (EffectsNode 1)).
  { vm_compute in Hsp. injection Hsp as <-.
    vm_compute in Hsrc. injection Hsrc as <-. by vm_compute. }
  destruct Hfacts as (Hb & Hst & Hnst & Hdest).
  destruct (stopAllSounds_misses_replaced_drum_source first_actor first_actor
              drum_store 3 1%float sp _ src Hsp Hb eq_refl Hsrc Hst Hnst)
    as (s1 & Hcall & sp' & Hsp' & Hplay & _ & Hearlier & _).
  exists s1. split; [exact Hcall|]. exists sp'. split; [exact Hsp'|].
  split; [exact Hplay|]. exists src. rewrite Hearlier.
  split; [apply elem_of_cons; by left|done].
Defined.

(** ** The buffer cache *)

Section Cache.

Context `{MathLib}.

Lemma exec_buffers_dom o w : dom (buffers w) ⊆ dom (buffers (exec o w)).
Proof.
  rewrite exec_buffers. destruct o; try done.
  destruct outcome; [|done]. rewrite dom_insert. set_solver.
Qed.

Lemma run_buffers_dom ops w : dom (buffers w) ⊆ dom (buffers (run ops w)).
Proof.
  revert w. induction ops as [|o ops IH]; intros w; [done|].
  simpl. etrans; [apply exec_buffers_dom|apply IH].
Qed.

(** X8: the buffer cache is never evicted: whatever happens, an identity
    that has a buffer keeps having one; and the cache is changed by
    nothing but the success callback of a decode ([loadSounds], a failed
    decode and every playback operation leave it as it is). *)
Theorem cache_never_evicted (ops : list Op) (w : World) :
  dom (buffers w) ⊆ dom (buffers (run ops w))
  ∧ ∀ o, (∀ sound b, o ≠ Event_loaderSettled sound (Fulfilled b)) →
         buffers (exec o w) = buffers w.
Proof.
  split; [apply run_buffers_dom|].
  intros o Ho. rewrite exec_buffers. destruct o; try done.
  destruct outcome as [b|e]; [|done]. by destruct (Ho sound0 b).
Qed.

End Cache.

Lemma cache_never_evicted_witness :
  let w := @run pow_basic playing_history init in
  buffers (@exec pow_basic Call_loadSounds w) = buffers w
  ∧ buffers (@exec pow_basic
               (Event_loaderSettled {| data := []; format := "adpcm"; md5 := "meow.wav" |}
                  (Failed "bad header")) w)
    = buffers w.
Proof.
  intros w.
  destruct (@cache_never_evicted pow_basic [] w) as [_ Hsame].
  split; apply Hsame; intros sound b; discriminate.
Defined.

(** X9: decoding is keyed by the md5 alone: after two successful decodes
    the second buffer is the one registered for its identity (it replaces
    the first when the identities are equal), the first is still
    registered when the identities differ, every other identity is as
    before, and neither the heap, the log nor the timeouts change. *)
Theorem decode_twice (s : Store) (sound1 sound2 : Sound) (b1 b2 : ToneBuffer) :
  let s' :=
    AudioEngine.decodeSound_then sound2 (Fulfilled b2)
      (AudioEngine.decodeSound_then sound1 (Fulfilled b1) s) in
  Engine.audioBuffers (audioEngine s') !! md5 sound2 = Some b2
  ∧ (md5 sound1 ≠ md5 sound2 →
       Engine.audioBuffers (audioEngine s') !! md5 sound1 = Some b1)
  ∧ (∀ k, k ≠ md5 sound1 → k ≠ md5 sound2 →
       Engine.audioBuffers (audioEngine s') !! k
       = Engine.audioBuffers (audioEngine s) !! k)
  ∧ heap s' = heap s ∧ log s' = log s ∧ timers s' = timers s.
Proof.
  simpl. split; [apply lookup_insert_eq|]. split.
  - intros Hne. rewrite lookup_insert_ne by done. apply lookup_insert_eq.
  - split; [|done]. intros k Hk1 Hk2. by rewrite !lookup_insert_ne.
Qed.

Lemma decode_twice_witness :
  let s' :=
    AudioEngine.decodeSound_then {| data := []; format := ""; md5 := "woof.wav" |}
      (Fulfilled empty_buffer)
      (AudioEngine.decodeSound_then {| data := []; format := ""; md5 := "meow.wav" |}
         (Fulfilled meow) (store init)) in
  Engine.audioBuffers (audioEngine s') !! "woof.wav" = Some empty_buffer
  ∧ Engine.audioBuffers (audioEngine s') !! "meow.wav" = Some meow.
Proof.
  destruct (decode_twice (store init)
              {| data := []; format := ""; md5 := "meow.wav" |}
              {| data := []; format := ""; md5 := "woof.wav" |}
              meow empty_buffer) as (H2 & H1 & _).
  split; [exact H2|]. apply H1. discriminate.
Defined.

(** X10: once a sound is decoded into a loaded buffer, [playSound] for its
    identity returns a pending promise and makes exactly one new player:
    it is bound to that buffer, connected to the actor's effects node,
    playing on a started source that carries the [onended] handler, and
    registered under the identity; nothing is logged. *)
Theorem decode_then_playSound
    (asset : Sound) (b : ToneBuffer) (this : AudioPlayer.t) (s : Store) :
  loaded b = true →
  let s1 := AudioEngine.decodeSound_then asset (Fulfilled b) s in
  let '(ret, this', s') := AudioPlayer.playSound (md5 asset) this s1 in
  ret = RetPromise Pending
  ∧ length (heap s') = S (length (heap s))
  ∧ AudioPlayer.activeSoundPlayers this' !! md5 asset = Some (length (heap s))
  ∧ log s' = log s
  ∧ ∃ c src,
      heap s' !! length (heap s) = Some c
      ∧ sound c = md5 asset
      ∧ SoundPlayer.buffer (obj c) = Some b
      ∧ SoundPlayer.outputNode (obj c) = Some (gain_node (AudioPlayer.effectsNode this))
      ∧ SoundPlayer.isPlaying (obj c) = true
      ∧ SoundPlayer.bufferSource (obj c) = Some src
      ∧ bs_buffer src = samples b
      ∧ bs_destination src = Some (gain_node (AudioPlayer.effectsNode this))
      ∧ bs_started src = true ∧ bs_stopped src = false ∧ bs_onended src = true.
Proof.
  intros Hl s1.
  assert (Hb : Engine.audioBuffers (audioEngine s1) !! md5 asset = Some b)
    by apply decodeSound_then_fulfilled.
  rewrite (playSound_registered _ _ _ _ Hb).
  change (heap s1) with (heap s). change (log s1) with (log s).
  pose proof (stop_previous_length (md5 asset) this (heap s)) as Hlen.
  set (h1 := stop_previous (md5 asset) this (heap s)) in *.
  unfold AudioPlayer.make_player.
  rewrite (start_loaded _ b) by done. simpl.
  split; [done|]. split.
  { by rewrite update_length, length_app, Hlen, Nat.add_1_r. }
  split.
  { apply prune_lookup_Some. split; [apply lookup_insert_eq|].
    unfold is_playing. by rewrite <- Hlen, list_lookup_middle. }
  split; [by rewrite app_nil_r|].
  rewrite <- Hlen, update_lookup, list_lookup_middle by done. simpl.
  eexists _, _. repeat split.
Qed.

Lemma decode_then_playSound_witness :
  let s1 := AudioEngine.decodeSound_then
              {| data := []; format := ""; md5 := "meow.wav" |} (Fulfilled meow)
              (store init) in
  let '(ret, this', s') := AudioPlayer.playSound "meow.wav" first_actor s1 in
  ret = RetPromise Pending
  ∧ length (heap s') = 1
  ∧ AudioPlayer.activeSoundPlayers this' !! "meow.wav" = Some 0
  ∧ is_playing (heap s') 0 = true.
Proof.
  intros s1.
  pose proof (decode_then_playSound
                {| data := []; format := ""; md5 := "meow.wav" |} meow
                first_actor (store init) eq_refl) as Hthm.
  cbn [md5] in Hthm. fold s1 in Hthm.
  destruct (AudioPlayer.playSound "meow.wav" first_actor s1) as [[ret this'] s'].
  destruct Hthm as (Hret & Hlen & Hreg & _ & c & src & Hc & _ & _ & _ & Hplay & _).
  split; [exact Hret|]. split; [exact Hlen|]. split; [exact Hreg|].
  unfold is_playing. simpl in Hc. by rewrite Hc.
Defined.

(** ** Effects by name *)

Section EffectNames.

Context `{MathLib}.

(** X11: [setEffect] with a name that is neither ["pitch"] nor ["pan"]
    does nothing at all, and with any name other than ["pitch"] it leaves
    the shared state (every sound player included), the pitch, the gain
    and the registry as they were. *)
Theorem setEffect_other_names
    (effect : string) (value : float) (this : AudioPlayer.t) (s : Store) :
  effect ≠ "pitch" →
  let '(this', s') := AudioPlayer.setEffect effect value this s in
  s' = s
  ∧ AudioPlayer.pitchEffect this' = AudioPlayer.pitchEffect this
  ∧ AudioPlayer.effectsNode this' = AudioPlayer.effectsNode this
  ∧ AudioPlayer.activeSoundPlayers this' = AudioPlayer.activeSoundPlayers this
  ∧ (effect ≠ "pan" → this' = this).
Proof.
  intros Hpitch. unfold AudioPlayer.setEffect.
  rewrite decide_False by done. case_decide; simpl; repeat split; done.
Qed.

End EffectNames.

Lemma setEffect_other_names_witness :
  @AudioPlayer.setEffect pow_basic "echo" 50%float playing_actor (store playing_world)
  = (playing_actor, store playing_world).
Proof.
  pose proof (@setEffect_other_names pow_basic "echo" 50%float playing_actor
                (store playing_world)) as Hthm.
  destruct (@AudioPlayer.setEffect pow_basic "echo" 50%float playing_actor
              (store playing_world)) as [this' s'].
  destruct Hthm as (Hs & _ & _ & _ & Hthis); [discriminate|].
  rewrite Hs, Hthis; [done|discriminate].
Defined.

(** ** The objects of the heap over time *)

Lemma ages_refl h : ages h h.
Proof. intros r c Hc. exists c. done. Qed.

Lemma ages_trans h1 h2 h3 : ages h1 h2 → ages h2 h3 → ages h1 h3.
Proof.
  intros H12 H23 r c1 Hc1.
  destruct (H12 r c1 Hc1) as (c2 & Hc2 & Hs2 & Hb2 & Ho2 & Hp2).
  destruct (H23 r c2 Hc2) as (c3 & Hc3 & Hs3 & Hb3 & Ho3 & Hp3).
  exists c3. split; [done|]. repeat split; try congruence. eauto.
Qed.

Lemma keeps_binding_stop : keeps_binding SoundPlayer.stop.
Proof. intros x. simpl. done. Qed.

Lemma keeps_binding_setPlaybackRate rate :
  keeps_binding (SoundPlayer.setPlaybackRate rate).
Proof. intros x. simpl. done. Qed.

Lemma keeps_binding_onended : keeps_binding SoundPlayer.onended.
Proof.
  intros x. unfold SoundPlayer.onended.
  destruct (SoundPlayer.bufferSource x) as [src|]; [|done].
  by destruct (bs_onended src).
Qed.

Lemma ages_update r f h : keeps_binding f → ages h (update r f h).
Proof.
  intros Hf r' c Hc. destruct (decide (r = r')) as [<-|Hne].
  - exists (on_obj f c). rewrite update_lookup, Hc. split; [done|].
    destruct (Hf (obj c)) as (Hb & Ho & Hp). done.
  - exists c. by rewrite update_lookup_ne.
Qed.

Lemma ages_for_each f players h : keeps_binding f → ages h (for_each f players h).
Proof.
  intros Hf. unfold for_each.
  induction (map_to_list players) as [|kv l IH]; [apply ages_refl|].
  simpl. eapply ages_trans; [exact IH|]. by apply ages_update.
Qed.

Lemma ages_stop_previous md5 this h : ages h (stop_previous md5 this h).
Proof.
  unfold stop_previous. destruct (_ !! md5); [|apply ages_refl].
  apply ages_update, keeps_binding_stop.
Qed.

(** The heap [playSound] leaves, seen from the heap it found. *)
Lemma ages_new_player md5 this h cell player :
  ages h (update (length h) (λ _, player) (stop_previous md5 this h ++ [cell])).
Proof.
  eapply ages_trans; [apply ages_stop_previous|].
  intros r c Hc. exists c. split; [|done].
  pose proof (lookup_lt_Some _ _ _ Hc) as Hlt.
  rewrite stop_previous_length in Hlt.
  rewrite update_lookup_ne by lia. by apply lookup_app_l_Some.
Qed.

Section HeapOverTime.

Context `{MathLib}.

Lemma with_actor_ages a f w :
  (∀ p s, ages (heap s) (heap (f p s).2)) →
  ages (heap (store w)) (heap (store (with_actor a f w))).
Proof.
  intros Hf. unfold with_actor.
  destruct (actors w !! a) as [p|]; [|apply ages_refl].
  specialize (Hf p (store w)). by destruct (f p (store w)).
Qed.

Lemma playSound_ages md5 p s :
  ages (heap s)
    (heap (let '(_, p', s') := AudioPlayer.playSound md5 p s in (p', s')).2).
Proof.
  destruct (Engine.audioBuffers (audioEngine s) !! md5) as [b|] eqn:Hb.
  - rewrite (playSound_registered _ _ _ _ Hb). simpl. apply ages_new_player.
  - rewrite playSound_no_buffer by done. apply ages_refl.
Qed.

Lemma exec_ages o w : ages (heap (store w)) (heap (store (exec o w))).
Proof.
  destruct o; simpl; try apply ages_refl.
  - apply with_actor_ages. intros p s. apply playSound_ages.
  - apply with_actor_ages. intros p s. unfold AudioPlayer.playDrumForBeats.
    destruct (DrumPlayer.play _ _ _) as [[d warns]|e]; apply ages_refl.
  - apply with_actor_ages. intros p s. rewrite stopAllSounds_unfold. simpl.
    apply ages_for_each, keeps_binding_stop.
  - apply with_actor_ages. intros p s. unfold AudioPlayer.setEffect.
    repeat case_decide; simpl; try apply ages_refl.
    apply ages_for_each, keeps_binding_setPlaybackRate.
  - apply with_actor_ages. intros p s. simpl.
    apply ages_for_each, keeps_binding_setPlaybackRate.
  - apply with_actor_ages. intros p s. apply ages_refl.
  - unfold AudioEngine.decodeSound. repeat case_decide; apply ages_refl.
  - destruct outcome; apply ages_refl.
  - apply ages_update, keeps_binding_onended.
Qed.

Lemma run_ages ops w : ages (heap (store w)) (heap (store (run ops w))).
Proof.
  revert w. induction ops as [|o ops IH]; intros w; [apply ages_refl|].
  simpl. eapply ages_trans; [apply exec_ages|apply IH].
Qed.

(** X12: a [SoundPlayer] made by [playSound] is single-shot and keeps its
    binding: whatever happens afterwards (a new decode of the same
    identity included), it stays in the heap for the same sound, with the
    same buffer and the same output node, and once it is not playing it
    never plays again. *)
Theorem sound_players_are_single_shot (ops : list Op) (w : World) (r : nat) (c : Cell) :
  heap (store w) !! r = Some c →
  ∃ c', heap (store (run ops w)) !! r = Some c'
        ∧ sound c' = sound c
        ∧ SoundPlayer.buffer (obj c') = SoundPlayer.buffer (obj c)
        ∧ SoundPlayer.outputNode (obj c') = SoundPlayer.outputNode (obj c)
        ∧ (SoundPlayer.isPlaying (obj c) = false →
           SoundPlayer.isPlaying (obj c') = false).
Proof.
  intros Hc. destruct (run_ages ops w r c Hc) as (c' & Hc' & Hs & Hb & Ho & Hp).
  exists c'. repeat split; try done.
  intros Hstopped. destruct (SoundPlayer.isPlaying (obj c')); [|done].
  rewrite Hp in Hstopped; done.
Qed.

Lemma with_actor_heap_length a f w :
  (∀ p s, length (heap (f p s).2) = length (heap s)) →
  length (heap (store (with_actor a f w))) = length (heap (store w)).
Proof.
  intros Hf. unfold with_actor.
  destruct (actors w !! a) as [p|]; [|done].
  specialize (Hf p (store w)). by destruct (f p (store w)).
Qed.

(** X13: [playSound] never reuses a player and nothing else makes one: an
    operation lengthens the heap by exactly one object when it is a
    [playSound] of an existing actor for a sound that has a buffer, and
    leaves its length unchanged otherwise. *)
Theorem heap_grows_by_playSound_only (o : Op) (w : World) :
  length (heap (store (exec o w)))
  = length (heap (store w)) + (if allocates o w then 1 else 0).
Proof.
  destruct o; simpl; rewrite ?Nat.add_0_r; try done.
  - unfold with_actor, buffers. destruct (actors w !! a) as [p|] eqn:Ha.
    + destruct (Engine.audioBuffers (audioEngine (store w)) !! _) as [b|] eqn:Hb.
      * rewrite (playSound_registered _ _ _ _ Hb). simpl.
        by rewrite update_length, length_app, stop_previous_length.
      * rewrite playSound_no_buffer by done. simpl. lia.
    + simpl. lia.
  - apply (with_actor_heap_length a _ w). intros p s.
    unfold AudioPlayer.playDrumForBeats.
    by destruct (DrumPlayer.play _ _ _) as [[d warns]|e].
  - apply (with_actor_heap_length a _ w). intros p s.
    rewrite stopAllSounds_unfold. simpl. apply for_each_length.
  - apply (with_actor_heap_length a _ w). intros p s.
    unfold AudioPlayer.setEffect. repeat case_decide; simpl; try done.
    apply for_each_length.
  - apply (with_actor_heap_length a _ w). intros p s. simpl.
    apply for_each_length.
  - by apply (with_actor_heap_length a _ w).
  - unfold AudioEngine.decodeSound. by repeat case_decide.
  - by destruct outcome.
  - apply update_length.
Qed.

End HeapOverTime.

Lemma sound_players_are_single_shot_witness :
  let w := @run pow_basic stale_history init in
  ∃ c', heap (store (@run pow_basic
                       [Event_loaderSettled {| data := []; format := ""; md5 := "meow.wav" |}
                          (Fulfilled empty_buffer);
                        Call_playSound 0 "meow.wav"] w)) !! 0 = Some c'
        ∧ SoundPlayer.buffer (obj c') = Some meow
        ∧ SoundPlayer.isPlaying (obj c') = false.
Proof.
  intros w.
  destruct (heap (store w) !! 0) as [c|] eqn:Hc; [|by vm_compute in Hc].
  destruct (@sound_players_are_single_shot pow_basic
              [Event_loaderSettled {| data := []; format := ""; md5 := "meow.wav" |}
                 (Fulfilled empty_buffer);
               Call_playSound 0 "meow.wav"] w 0 c Hc)
    as (c' & Hc' & _ & Hb & _ & Hp).
  exists c'. split; [exact Hc'|].
  vm_compute in Hc. injection Hc as <-. split; [exact Hb|]. by apply Hp.
Defined.

(** ** Actors do not touch each other's sounds *)

Lemma Owned_ages w w' :
  Owned w →
  (∀ a p', actors w' !! a = Some p' →
           ∃ p, actors w !! a = Some p ∧ same_identity p p') →
  ages (heap (store w)) (heap (store w')) →
  Owned w'.
Proof.
  intros Hown Hback Hages a p' X r Hp' Hr.
  destruct (Hback a p' Hp') as (p & Hp & _ & Hregs). rewrite <- Hregs in Hr.
  destruct (Hown a p X r Hp Hr) as (c & Hc & Ho & Hs).
  destruct (Hages r c Hc) as (c' & Hc' & Hs' & _ & Ho' & _).
  exists c'. split; [done|]. split; congruence.
Qed.

Lemma Owned_init : Owned init.
Proof. intros a p X r Hp. simpl in Hp. by rewrite lookup_nil in Hp. Qed.

Section Isolation.

Context `{MathLib}.

Lemma with_actor_back a f w :
  (∀ p s, same_identity p (f p s).1) →
  ∀ a' p', actors (with_actor a f w) !! a' = Some p' →
           ∃ p, actors w !! a' = Some p ∧ same_identity p p'.
Proof.
  intros Hf a' p'. unfold with_actor.
  destruct (actors w !! a) as [p|] eqn:Ha.
  - specialize (Hf p (store w)). destruct (f p (store w)) as [q s']. simpl in *.
    intros [(<- & <- & _)|[Hne Hp']]%list_lookup_insert_Some; [eauto|].
    exists p'. split; [done|]. by split.
  - intros Hp'. exists p'. split; [done|]. by split.
Qed.

Lemma on_store_back (f : Store → Store) w :
  ∀ a' p', actors (on_store f w) !! a' = Some p' →
           ∃ p, actors w !! a' = Some p ∧ same_identity p p'.
Proof. intros a' p' Hp'. exists p'. split; [done|]. by split. Qed.

Lemma playSound_owned a md5 w :
  Inv w → Owned w →
  Owned (with_actor a
           (λ p s, let '(_, p', s') := AudioPlayer.playSound md5 p s in (p', s')) w).
Proof.
  intros HI Hown. unfold with_actor.
  destruct (actors w !! a) as [p|] eqn:Ha; [|done].
  destruct (Engine.audioBuffers (audioEngine (store w)) !! md5) as [b|] eqn:Hb.
  2:{ rewrite playSound_no_buffer by done. rewrite list_insert_id by done.
      by destruct w. }
  rewrite (playSound_registered _ _ _ _ Hb).
  pose proof (stop_previous_length md5 p (heap (store w))) as Hlen.
  intros a' p' X r Hp' Hr. simpl in *.
  assert (Hages : ages (heap (store w))
            (update (length (heap (store w)))
               (λ _, (SoundPlayer.finished (AudioPlayer.make_player b p).1).1)
               (stop_previous md5 p (heap (store w)) ++
                [ {| obj := (AudioPlayer.make_player b p).1; sound := md5 |} ])))
    by apply ages_new_player.
  assert (Hold : ∀ q, actors w !! a' = Some q →
                      AudioPlayer.activeSoundPlayers q !! X = Some r →
            ∃ c, update (length (heap (store w)))
                   (λ _, (SoundPlayer.finished (AudioPlayer.make_player b p).1).1)
                   (stop_previous md5 p (heap (store w)) ++
                    [ {| obj := (AudioPlayer.make_player b p).1; sound := md5 |} ])
                 !! r = Some c
                 ∧ SoundPlayer.outputNode (obj c) = Some (EffectsNode a')
                 ∧ sound c = X).
  { intros q Hq Hqr. destruct (Hown a' q X r Hq Hqr) as (c & Hc & Ho & Hs).
    destruct (Hages r c Hc) as (c' & Hc' & Hs' & _ & Ho' & _).
    exists c'. split; [done|]. split; congruence. }
  apply list_lookup_insert_Some in Hp' as [(<- & <- & _)|[Hne Hp']]; [|eauto].
  simpl in Hr. apply prune_lookup_Some in Hr as [Hr _].
  apply lookup_insert_Some in Hr as [[<- <-]|[_ Hr]]; [|eauto].
  rewrite <- Hlen, update_lookup, list_lookup_middle by done. simpl.
  eexists. split; [reflexivity|]. simpl. split; [|done].
  rewrite finished_outputNode, make_player_outputNode.
  f_equal. by apply (inv_nodes w HI).
Qed.

Lemma exec_owned o w : Inv w → Owned w → Owned (exec o w).
Proof.
  intros HI Hown. destruct o.
  1:{ simpl. unfold createPlayer, AudioPlayer.new, AudioPlayer.clearEffects. simpl.
      rewrite for_each_empty. intros a p X r Hp Hr. simpl in *.
      apply lookup_snoc_Some in Hp as [[_ Hp]|[_ <-]]; [eauto|].
      simpl in Hr. by rewrite lookup_empty in Hr. }
  1:{ by apply playSound_owned. }
  all: apply (Owned_ages w); [done| |apply exec_ages]; simpl.
  all: try (intros a' p' Hp'; exists p'; split; [exact Hp'|by split]).
  - apply with_actor_back. intros p s. unfold AudioPlayer.playDrumForBeats.
    by destruct (DrumPlayer.play _ _ _) as [[d warns]|e].
  - by apply with_actor_back.
  - apply with_actor_back. intros p s. unfold AudioPlayer.setEffect.
    by repeat case_decide.
  - by apply with_actor_back.
  - by apply with_actor_back.
Qed.

Lemma run_owned ops w : Inv w → Owned w → Inv (run ops w) ∧ Owned (run ops w).
Proof.
  revert w. induction ops as [|o ops IH]; intros w HI Hown; [done|].
  simpl. apply IH; [by apply exec_inv|by apply exec_owned].
Qed.

(** A player made by another actor is not in this actor's registry. *)
Lemma foreign_player_not_registered w a b p r c :
  Owned w → a ≠ b →
  actors w !! a = Some p →
  heap (store w) !! r = Some c →
  SoundPlayer.outputNode (obj c) = Some (EffectsNode b) →
  ∀ X, AudioPlayer.activeSoundPlayers p !! X ≠ Some r.
Proof.
  intros Hown Hne Hp Hc Ho X Hr.
  destruct (Hown a p X r Hp Hr) as (c0 & Hc0 & Ho0 & _). congruence.
Qed.

(** X14: after [stopAllSounds], the actor has no playing instance of any
    sound left, registered or not. *)
Theorem stopAllSounds_silences_actor (ops : list Op) (a : nat) (this : AudioPlayer.t) :
  let w := run ops init in
  actors w !! a = Some this →
  ∀ X r, ¬ playing_instance (exec (Call_stopAllSounds a) w) a X r.
Proof.
  intros w Ha X r (c' & Hc' & Ho' & Hs' & Hp').
  assert (HI : Inv w) by apply run_inv, Inv_init.
  simpl in Hc'. unfold with_actor in Hc'. rewrite Ha in Hc'.
  rewrite stopAllSounds_unfold in Hc'. simpl in Hc'.
  destruct (quieter_for_each SoundPlayer.stop (AudioPlayer.activeSoundPlayers this)
              (heap (store w)) quiet_stop) as [_ Hq].
  destruct (Hq r c' Hc' Hp') as (c & Hc & Hp & Ho & Hs).
  destruct (inv_playing w HI r c Hc Hp) as (a1 & p1 & Hout & Ha1 & Hreg).
  assert (a1 = a) as -> by congruence.
  assert (p1 = this) as -> by congruence.
  rewrite (for_each_lookup_in _ _ _ _ _ stop_idem Hreg), Hc in Hc'.
  injection Hc' as <-. discriminate Hp'.
Qed.

(** X15: the methods of one actor never modify a [SoundPlayer] that
    [playSound] made for another actor: [playSound], [stopAllSounds],
    [setEffect], [clearEffects], [setVolume] and [playDrumForBeats] called
    on actor [a] leave every object of the heap of [playSound] players that
    belongs to an actor [b <> a] (it is connected to the effects node of
    [b]) exactly as it was, still playing if it was and at the same rate.
    The drum players are not such objects: they are shared, and
    [stopAllSounds] and [playDrumForBeats] do act on them. *)
Theorem actors_are_isolated
    (ops : list Op) (o : Op) (a b r : nat) (c : Cell) :
  let w := run ops init in
  addressed_to o = Some a →
  a ≠ b →
  heap (store w) !! r = Some c →
  SoundPlayer.outputNode (obj c) = Some (EffectsNode b) →
  heap (store (exec o w)) !! r = Some c.
Proof.
  intros w Ho Hne Hc Hout.
  destruct (run_owned ops init Inv_init Owned_init) as [HI Hown]. fold w in HI, Hown.
  destruct (actors w !! a) as [p|] eqn:Ha.
  2:{ destruct o; try done; injection Ho as ->; simpl; unfold with_actor;
        by rewrite Ha. }
  pose proof (foreign_player_not_registered w a b p r c Hown Hne Ha Hc Hout) as Hnot.
  destruct o; try done; injection Ho as ->; simpl; unfold with_actor; rewrite Ha.
  - match goal with |- context [AudioPlayer.playSound ?m _ _] =>
      destruct (Engine.audioBuffers (audioEngine (store w)) !! m) as [buf|] eqn:Hb;
        [rewrite (playSound_registered _ _ _ _ Hb)
        |by rewrite playSound_no_buffer by done]
    end.
    simpl. pose proof (lookup_lt_Some _ _ _ Hc) as Hlt.
    rewrite update_lookup_ne by lia. apply lookup_app_l_Some.
    unfold stop_previous.
    destruct (AudioPlayer.activeSoundPlayers p !! _) as [r0|] eqn:Hr0; [|done].
    rewrite update_lookup_ne; [done|]. intros ->. by eapply Hnot.
  - unfold AudioPlayer.playDrumForBeats.
    by destruct (DrumPlayer.play _ _ _) as [[d warns]|e].
  - rewrite stopAllSounds_unfold. simpl.
    by rewrite for_each_lookup_notin by (apply stop_idem || done).
  - unfold AudioPlayer.setEffect. repeat case_decide; simpl; try done.
    rewrite for_each_lookup_notin; [done| |done].
    intros x. apply setPlaybackRate_idem.
  - simpl. rewrite for_each_lookup_notin; [done| |done].
    intros x. apply setPlaybackRate_idem.
  - done.
Qed.

End Isolation.

Lemma stopAllSounds_silences_actor_witness :
  let w := @run pow_basic playing_history init in
  playing_instance w 0 "meow.wav" 0
  ∧ ¬ playing_instance (@exec pow_basic (Call_stopAllSounds 0) w) 0 "meow.wav" 0.
Proof.
  intros w. split.
  - destruct (heap (store w) !! 0) as [c|] eqn:Hc; [|by vm_compute in Hc].
    exists c. split; [exact Hc|].
    vm_compute in Hc. injection Hc as <-. by vm_compute.
  - destruct (actors w !! 0) as [this|] eqn:Ha; [|by vm_compute in Ha].
    exact (@stopAllSounds_silences_actor pow_basic playing_history 0 this Ha
             "meow.wav" 0).
Defined.

Lemma actors_are_isolated_witness :
  let w := @run pow_basic two_actor_history init in
  ∃ c, heap (store w) !! 0 = Some c
       ∧ SoundPlayer.isPlaying (obj c) = true
       ∧ heap (store (@exec pow_basic (Call_stopAllSounds 0) w)) !! 0 = Some c
       ∧ heap (store (@exec pow_basic (Call_setEffect 0 "pitch" 120%float) w)) !! 0
         = Some c.
Proof.
  intros w.
  destruct (heap (store w) !! 0) as [c|] eqn:Hc; [|by vm_compute in Hc].
  assert (Hout : SoundPlayer.outputNode (obj c) = Some (EffectsNode 1)).
  { vm_compute in Hc. by injection Hc as <-. }
  assert (Hplay : SoundPlayer.isPlaying (obj c) = true).
  { vm_compute in Hc. by injection Hc as <-. }
  exists c. split; [done|]. split; [exact Hplay|]. split.
  - apply (@actors_are_isolated pow_basic two_actor_history
             (Call_stopAllSounds 0) 0 1 0 c eq_refl); [lia|exact Hc|exact Hout].
  - apply (@actors_are_isolated pow_basic two_actor_history
             (Call_setEffect 0 "pitch" 120%float) 0 1 0 c eq_refl);
      [lia|exact Hc|exact Hout].
Defined.

(** ** The tempo *)

Section Tempo.

Context `{MathLib}.

Lemma run_tempo_unchanged ops w :
  Forall (λ o, changes_tempo o = false) ops →
  Engine.currentTempo (audioEngine (store (run ops w)))
  = Engine.currentTempo (audioEngine (store w)).
Proof.
  revert w. induction ops as [|o ops IH]; intros w Hops; [done|].
  apply Forall_cons in Hops as [Ho Hops]. simpl.
  rewrite IH by done. rewrite exec_tempo. by destruct o.
Qed.

(** X16: the tempo is assigned by [setTempo] and [changeTempo] only: over
    any history without these two calls (sounds, drums, notes, waits,
    effects, decodes, callbacks) the tempo is unchanged, so a number of
    beats converts to the same number of seconds before and after. *)
Theorem tempo_changes_only_by_tempo_calls (ops : list Op) (w : World) (beats : float) :
  Forall (λ o, changes_tempo o = false) ops →
  Engine.currentTempo (audioEngine (store (run ops w)))
  = Engine.currentTempo (audioEngine (store w))
  ∧ AudioEngine.beatsToSec beats (audioEngine (store (run ops w)))
    = AudioEngine.beatsToSec beats (audioEngine (store w)).
Proof.
  intros Hops. pose proof (run_tempo_unchanged ops w Hops) as Ht.
  split; [done|]. unfold AudioEngine.beatsToSec. by rewrite Ht.
Qed.

End Tempo.

Lemma tempo_changes_only_by_tempo_calls_witness :
  Engine.currentTempo (audioEngine (store (@run pow_basic drum_history init)))
  = 60%float
  ∧ AudioEngine.beatsToSec 2%float (audioEngine (store (@run pow_basic drum_history init)))
    = 2%float.
Proof.
  apply (@tempo_changes_only_by_tempo_calls pow_basic drum_history init 2%float).
  repeat constructor.
Defined.

(** ** New actors and the registry *)

Section Registry.

Context `{MathLib}.

(** X17: [createPlayer] adds one actor and touches nothing else: the new
    actor has an empty registry, gain 1, and no playing instance of any
    sound; the heap and the actors that existed are as before. *)
Theorem createPlayer_starts_silent (ops : list Op) :
  let w := run ops init in
  let a := length (actors w) in
  let w' := exec Call_createPlayer w in
  (∃ p, actors w' !! a = Some p
        ∧ AudioPlayer.activeSoundPlayers p = ∅
        ∧ gain_value (AudioPlayer.effectsNode p) = 1%float)
  ∧ length (actors w') = S a
  ∧ (∀ X r, ¬ playing_instance w' a X r)
  ∧ heap (store w') = heap (store w)
  ∧ (∀ b p, actors w !! b = Some p → actors w' !! b = Some p).
Proof.
  intros w a w'.
  assert (HI' : Inv w') by (apply exec_inv, run_inv, Inv_init).
  assert (Hactors : actors w' = actors w ++ [
            (AudioPlayer.new a (store w)).1 ]).
  { subst w'. simpl. unfold createPlayer. fold a.
    by destruct (AudioPlayer.new a (store w)). }
  assert (Hnew : actors w' !! a
                 = Some (AudioPlayer.new a (store w)).1).
  { rewrite Hactors. by apply list_lookup_middle. }
  split; [|split; [|split; [|split]]].
  - eexists. split; [exact Hnew|]. done.
  - rewrite Hactors, length_app. simpl. lia.
  - intros X r (c & Hc & Ho & Hs & Hp).
    destruct (inv_playing w' HI' r c Hc Hp) as (a1 & p1 & Hout & Ha1 & Hreg).
    assert (a1 = a) as -> by congruence.
    rewrite Hnew in Ha1. injection Ha1 as <-. simpl in Hreg.
    by rewrite lookup_empty in Hreg.
  - subst w'. simpl. unfold createPlayer, AudioPlayer.new, AudioPlayer.clearEffects.
    simpl. by rewrite for_each_empty.
  - intros b p Hb. rewrite Hactors. by apply lookup_app_l_Some.
Qed.

(** X18: the registry after [playSound], exactly: in a state the system
    can reach, when the sound has a buffer, the registry that the call
    leaves holds the new player under the sound's identity if it started,
    and, under every other identity, the player that was registered there
    if it is still playing; it holds nothing else. *)
Theorem playSound_registry_update
    (ops : list Op) (a : nat) (this : AudioPlayer.t) (md5 : string) (b : ToneBuffer) :
  let w := run ops init in
  actors w !! a = Some this →
  buffers w !! md5 = Some b →
  let '(_, this', _) := AudioPlayer.playSound md5 this (store w) in
  ∀ id r,
    AudioPlayer.activeSoundPlayers this' !! id = Some r
    ↔ (id = md5 ∧ r = length (heap (store w)) ∧ loaded b = true)
      ∨ (id ≠ md5
         ∧ AudioPlayer.activeSoundPlayers this !! id = Some r
         ∧ is_playing (heap (store w)) r = true).
Proof.
  intros w Ha Hb.
  destruct (run_owned ops init Inv_init Owned_init) as [HI Hown]. fold w in HI, Hown.
  rewrite (playSound_registered _ _ _ _ Hb). simpl.
  pose proof (stop_previous_length md5 this (heap (store w))) as Hlen.
  set (h1 := stop_previous md5 this (heap (store w))) in *.
  set (cell := {| obj := (AudioPlayer.make_player b this).1; sound := md5 |}).
  assert (Hnew : is_playing (h1 ++ [cell]) (length (heap (store w))) = loaded b).
  { unfold is_playing. rewrite <- Hlen, list_lookup_middle by done.
    apply make_player_isPlaying. }
  assert (Hold : ∀ id r, id ≠ md5 →
            AudioPlayer.activeSoundPlayers this !! id = Some r →
            is_playing (h1 ++ [cell]) r = is_playing (heap (store w)) r).
  { intros id r Hid Hr.
    pose proof (inv_refs w HI a this id r Ha Hr) as Hlt.
    unfold is_playing. rewrite lookup_app_l by lia.
    subst h1. unfold stop_previous.
    destruct (AudioPlayer.activeSoundPlayers this !! md5) as [r0|] eqn:Hr0; [|done].
    rewrite update_lookup_ne; [done|]. intros ->.
    destruct (Hown a this id r Ha Hr) as (c1 & Hc1 & _ & Hs1).
    destruct (Hown a this md5 r Ha Hr0) as (c2 & Hc2 & _ & Hs2). congruence. }
  intros id r. rewrite prune_lookup_Some, lookup_insert_Some. simpl. split.
  - intros [[[<- <-]|[Hid Hr]] Hplay].
    + left. by rewrite <- Hnew.
    + right. split; [done|]. split; [done|]. by rewrite <- (Hold id r).
  - intros [(-> & -> & Hl)|(Hid & Hr & Hplay)].
    + split; [by left|]. by rewrite Hnew.
    + split; [right; by split|]. by rewrite (Hold id r).
Qed.

End Registry.

Lemma playSound_registry_update_witness :
  let '(_, this', _) := AudioPlayer.playSound "woof.wav" woof_actor (store woof_world) in
  AudioPlayer.activeSoundPlayers this' !! "woof.wav" = Some 1
  ∧ AudioPlayer.activeSoundPlayers this' !! "meow.wav" = None.
Proof.
  pose proof (@playSound_registry_update pow_basic
                (stale_history
                 ++ [Event_loaderSettled {| data := []; format := ""; md5 := "woof.wav" |}
                       (Fulfilled {| loaded := true; samples := [0.5%float] |})])
                0 woof_actor "woof.wav" meow eq_refl eq_refl) as Hthm.
  fold woof_world in Hthm.
  destruct (AudioPlayer.playSound "woof.wav" woof_actor (store woof_world))
    as [[ret this'] s'].
  split.
  - apply Hthm. left. by vm_compute.
  - destruct (AudioPlayer.activeSoundPlayers this' !! "meow.wav") as [r|] eqn:Hr;
      [|done].
    apply Hthm in Hr as [(Hid & _)|(_ & Hreg & Hplay)]; [discriminate|].
    vm_compute in Hreg. injection Hreg as <-. by vm_compute in Hplay.
Defined.

Lemma createPlayer_starts_silent_witness :
  let w := @run pow_basic playing_history init in
  let w' := @exec pow_basic Call_createPlayer w in
  length (actors w') = 2
  ∧ ¬ playing_instance w' 1 "meow.wav" 0
  ∧ playing_instance w' 0 "meow.wav" 0.
Proof.
  intros w w'.
  destruct (@createPlayer_starts_silent pow_basic playing_history)
    as (_ & Hlen & Hsilent & _ & _).
  split; [exact Hlen|]. split; [exact (Hsilent "meow.wav" 0)|].
  destruct (heap (store w') !! 0) as [c|] eqn:Hc; [|by vm_compute in Hc].
  exists c. split; [exact Hc|].
  vm_compute in Hc. injection Hc as <-. by vm_compute.
Defined.
